(** * Emotionagotchi: creature state, session coordinator and persistence gateway

    A shallow embedding of the core of the emotionagotchi app:
    - [src/utils/creatureState.ts]: the state transition function;
    - [src/context/EmotionContext.tsx]: the session coordinator ([addLog]);
    - [src/app/page.tsx]: the page handler that gates submissions;
    - [src/services/storageService.ts]: the persistence gateway, on top of
      the browser's [localStorage] and [JSON].

    JavaScript numbers that the program only ever uses as integers are
    modelled as [Z]; JavaScript strings as lists of UTF-16 code units. *)

From Stdlib Require Import ZArith NArith List Lia Bool Ascii String.
From Stdlib Require Import DecimalN DecimalFacts.
From stdpp Require Import base option list sorting gmap.

Set Warnings "-register-all".

Open Scope Z_scope.

(** ** JavaScript strings *)

(** A JavaScript string is a sequence of UTF-16 code units. *)
Abbreviation JsString := (list N).

(** An ASCII literal as a JavaScript string. *)
Definition js (s : string) : JsString :=
  map N_of_ascii (list_ascii_of_string s).

(** The same, with every apostrophe of the literal standing for the
    double quote (code unit 34). *)
Definition jsq (s : string) : JsString :=
  map (fun c => if (c =? 39)%N then 34%N else c) (js s).

(** [a === b] on strings. *)
Fixpoint eqUnits (a b : JsString) : bool :=
  match a, b with
  | [], [] => true
  | c :: a', d :: b' => (c =? d)%N && eqUnits a' b'
  | _, _ => false
  end.

(** The code units [String.prototype.trim] strips: ECMAScript's WhiteSpace
    (TAB, VT, FF, SP, NBSP, ZWNBSP and the Unicode space separators) and
    LineTerminator (LF, CR, LS, PS). *)
Definition isTrimmable (c : N) : bool :=
  ((9 <=? c) && (c <=? 13) || (c =? 32) || (c =? 160) || (c =? 5760)
   || (8192 <=? c) && (c <=? 8202) || (c =? 8232) || (c =? 8233)
   || (c =? 8239) || (c =? 8287) || (c =? 12288) || (c =? 65279))%N.

Fixpoint trimStart (s : JsString) : JsString :=
  match s with
  | c :: rest => if isTrimmable c then trimStart rest else s
  | [] => []
  end.

Definition trimEnd (s : JsString) : JsString := rev (trimStart (rev s)).

Definition trim (s : JsString) : JsString := trimEnd (trimStart s).

Fixpoint startsWith (s prefix : JsString) : bool :=
  match prefix, s with
  | [], _ => true
  | p :: prefix', c :: s' => (p =? c)%N && startsWith s' prefix'
  | _ :: _, [] => false
  end.

(** [String.prototype.includes]. *)
Fixpoint includes (s needle : JsString) : bool :=
  startsWith s needle
  || match s with
     | _ :: s' => includes s' needle
     | [] => false
     end.

(** ** Types ([src/types/index.ts])

    The file is not among the sources; the types are the ones of the
    spec's data model (section 3), with the field names of the object
    literals in [creatureState.ts] and [EmotionContext.tsx]. *)

(** Modelled from the spec: the type [EmotionAction] of
    [src/types/index.ts], one of two tags. *)
Inductive EmotionAction := expressed | suppressed.

(** Modelled from the spec: the type of [CreatureState['animation']]. *)
Inductive Animation := idle | grow | curl | celebrate.

(** Modelled from the spec: the type [CreatureState] of
    [src/types/index.ts]. *)
Record CreatureState := {
  brightness : Z;
  size : Z;
  animation : Animation
}.

(** Modelled from the spec: the type [EmotionLog] of [src/types/index.ts]. *)
Record EmotionLog := {
  id : JsString;
  text : JsString;
  action : EmotionAction;
  timestamp : Z
}.

(** ** [src/utils/creatureState.ts] *)

Definition calculateNewState (currentState : CreatureState)
    (action : EmotionAction) : CreatureState :=
  let brightnessChange := match action with expressed => 5 | suppressed => -3 end in
  let sizeChange := match action with expressed => 2 | suppressed => -1 end in
  let newBrightness :=
    Z.max 0 (Z.min 100 (brightness currentState + brightnessChange)) in
  let newSize :=
    Z.max 0 (Z.min 100 (size currentState + sizeChange)) in
  let animation :=
    match action with
    | expressed => if newBrightness =? 100 then celebrate else grow
    | suppressed => curl
    end in
  {| brightness := newBrightness; size := newSize; animation := animation |}.

Definition getInitialState : CreatureState :=
  {| brightness := 50; size := 50; animation := idle |}.

(** The spec's [clamp(v, lo, hi) = max(lo, min(hi, v))]. *)
Definition clamp (v lo hi : Z) : Z := Z.max lo (Z.min hi v).

(** The states visited when the actions are applied one after the other
    ([state = calculateNewState(state, action)] in a loop), in order. *)
Fixpoint trajectory (state : CreatureState) (actions : list EmotionAction)
    : list CreatureState :=
  match actions with
  | [] => []
  | action :: rest =>
      let state' := calculateNewState state action in
      state' :: trajectory state' rest
  end.

Definition inBounds (s : CreatureState) : Prop :=
  0 <= brightness s <= 100 /\ 0 <= size s <= 100.

(** The inputs on which applying an action a second time changes nothing:
    the first application already lands on the ceiling (floor). *)
Definition saturates (s : CreatureState) (a : EmotionAction) : Prop :=
  match a with
  | expressed => 95 <= brightness s /\ 98 <= size s
  | suppressed => brightness s <= 3 /\ size s <= 1
  end.

(** ** The platform's [JSON] object

    [JSON.stringify] and [JSON.parse] on [null], booleans, numbers, strings,
    arrays and objects. A number is kept with the exact decimal value of its
    numeral: an integer is a [JNum]; a value that is not an integer is a
    [JDec], mantissa and negative power of ten (an engine rounds such a
    value to the nearest double, which an integer model does not follow).
    The program itself stores integers only. An object keeps its members in
    textual order; a reader takes the last member of a given name
    ([getField]), as [JSON.parse] does.

    Code units are written as numbers: 34 the double quote, 92 the backslash,
    44 comma, 58 colon, 45 minus, 46 full stop, 48 to 57 the digits,
    91 and 93 the square brackets, 123 and 125 the braces, 117 the letter u
    of a [\uXXXX] escape, 101 and 69 the letter e of an exponent, 43 plus,
    32, 9, 10 and 13 JSON's white space. *)

Module JSON.
Local Open Scope N_scope.

Inductive Json :=
| JNull
| JBool (b : bool)
| JNum (n : Z)
| JDec (mantissa exponent : Z)
| JStr (s : JsString)
| JArr (elements : list Json)
| JObj (members : list (JsString * Json)).

(** *** [JSON.stringify] *)

(** Lower-case hexadecimal digit of [d < 16]. *)
Definition hexDigit (d : N) : N := if d <? 10 then 48 + d else 87 + d.

Definition hex4 (c : N) : JsString :=
  [hexDigit (c / 4096 mod 16); hexDigit (c / 256 mod 16);
   hexDigit (c / 16 mod 16); hexDigit (c mod 16)].

Definition isHighSurrogate (c : N) : bool := (55296 <=? c) && (c <=? 56319).
Definition isLowSurrogate (c : N) : bool := (56320 <=? c) && (c <=? 57343).

(** QuoteJSONString on one code unit: the two-character escapes, [\uXXXX]
    for the other control characters and for a surrogate without its
    partner, the unit itself otherwise. *)
Definition quoteUnit (c : N) : JsString :=
  if c =? 34 then [92; 34]
  else if c =? 92 then [92; 92]
  else if c =? 8 then [92; 98]
  else if c =? 12 then [92; 102]
  else if c =? 10 then [92; 110]
  else if c =? 13 then [92; 114]
  else if c =? 9 then [92; 116]
  else if (c <? 32) || isHighSurrogate c || isLowSurrogate c
       then 92 :: 117 :: hex4 c
  else [c].

(** The body of a quoted string and its closing quote; a high surrogate
    followed by a low one is a well-formed pair and is copied. *)
Fixpoint quoteUnits (s : JsString) : JsString :=
  match s with
  | [] => [34]
  | c :: tl =>
      match tl with
      | d :: tl' =>
          if isHighSurrogate c && isLowSurrogate d
          then c :: d :: quoteUnits tl'
          else quoteUnit c ++ quoteUnits tl
      | [] => quoteUnit c ++ quoteUnits tl
      end
  end.

Definition quote (s : JsString) : JsString := 34 :: quoteUnits s.

(** The decimal digits of [u] as code units. *)
Fixpoint digits (u : Decimal.uint) : JsString :=
  match u with
  | Decimal.Nil => []
  | Decimal.D0 u => 48 :: digits u
  | Decimal.D1 u => 49 :: digits u
  | Decimal.D2 u => 50 :: digits u
  | Decimal.D3 u => 51 :: digits u
  | Decimal.D4 u => 52 :: digits u
  | Decimal.D5 u => 53 :: digits u
  | Decimal.D6 u => 54 :: digits u
  | Decimal.D7 u => 55 :: digits u
  | Decimal.D8 u => 56 :: digits u
  | Decimal.D9 u => 57 :: digits u
  end.

Definition numberToString (n : Z) : JsString :=
  match n with
  | Zneg p => 45 :: digits (N.to_uint (Npos p))
  | _ => digits (N.to_uint (Z.to_N n))
  end.

(** The program stores integers only. A [JDec], which it never stores, is
    printed as a numeral of the same value in exponent form; an engine
    prints the shortest numeral of the double it has rounded the value
    to. *)
Fixpoint stringify (j : Json) : JsString :=
  match j with
  | JNull => js "null"
  | JBool true => js "true"
  | JBool false => js "false"
  | JNum n => numberToString n
  | JDec m e => numberToString m ++ 101 :: numberToString e
  | JStr s => quote s
  | JArr [] => [91; 93]
  | JArr (x :: rest) =>
      91 :: stringify x ++
      (fix tail (l : list Json) : JsString :=
         match l with
         | [] => [93]
         | y :: l' => 44 :: stringify y ++ tail l'
         end) rest
  | JObj [] => [123; 125]
  | JObj ((k, v) :: rest) =>
      123 :: quote k ++ 58 :: stringify v ++
      (fix tail (l : list (JsString * Json)) : JsString :=
         match l with
         | [] => [125]
         | (k', v') :: l' => 44 :: quote k' ++ 58 :: stringify v' ++ tail l'
         end) rest
  end.

(** What [stringify] prints after the first element of an array (after the
    first member of an object): the other elements and the closing bracket. *)
Fixpoint elementsTail (l : list Json) : JsString :=
  match l with
  | [] => [93]
  | y :: l' => 44 :: stringify y ++ elementsTail l'
  end.

Fixpoint membersTail (l : list (JsString * Json)) : JsString :=
  match l with
  | [] => [125]
  | (k', v') :: l' => 44 :: quote k' ++ 58 :: stringify v' ++ membersTail l'
  end.

(** *** [JSON.parse]

    A recursive-descent parser. [fuel] bounds the depth of the calls;
    every call consumes a code unit before it calls deeper, and [parse]
    starts with one more than the length of the text. *)

Definition isWhitespace (c : N) : bool :=
  (c =? 32) || (c =? 9) || (c =? 10) || (c =? 13).

Fixpoint skipWhitespace (s : JsString) : JsString :=
  match s with
  | c :: rest => if isWhitespace c then skipWhitespace rest else s
  | [] => []
  end.

Definition hexValue (c : N) : option N :=
  if (48 <=? c) && (c <=? 57) then Some (c - 48)
  else if (97 <=? c) && (c <=? 102) then Some (c - 87)
  else if (65 <=? c) && (c <=? 70) then Some (c - 55)
  else None.

Definition unescape (e : N) : option N :=
  if e =? 34 then Some 34
  else if e =? 92 then Some 92
  else if e =? 47 then Some 47
  else if e =? 98 then Some 8
  else if e =? 102 then Some 12
  else if e =? 110 then Some 10
  else if e =? 114 then Some 13
  else if e =? 116 then Some 9
  else None.

(** The body of a string up to its closing quote, and the text after it. *)
Fixpoint parseUnits (s : JsString) : option (JsString * JsString) :=
  match s with
  | [] => None
  | c :: rest =>
      if c =? 34 then Some ([], rest)
      else if c =? 92 then
        match rest with
        | e :: rest1 =>
            if e =? 117 then
              match rest1 with
              | h1 :: h2 :: h3 :: h4 :: rest2 =>
                  a ← hexValue h1; b ← hexValue h2;
                  c' ← hexValue h3; d ← hexValue h4;
                  '(str, r) ← parseUnits rest2;
                  Some ((4096 * a + 256 * b + 16 * c' + d) :: str, r)
              | _ => None
              end
            else
              u ← unescape e;
              '(str, r) ← parseUnits rest1;
              Some (u :: str, r)
        | [] => None
        end
      else if c <? 32 then None
      else '(str, r) ← parseUnits rest; Some (c :: str, r)
  end.

(** The decimal digit a code unit stands for, as a constructor of
    [Decimal.uint]. *)
Definition digitOf (c : N) : option (Decimal.uint -> Decimal.uint) :=
  if c =? 48 then Some Decimal.D0
  else if c =? 49 then Some Decimal.D1
  else if c =? 50 then Some Decimal.D2
  else if c =? 51 then Some Decimal.D3
  else if c =? 52 then Some Decimal.D4
  else if c =? 53 then Some Decimal.D5
  else if c =? 54 then Some Decimal.D6
  else if c =? 55 then Some Decimal.D7
  else if c =? 56 then Some Decimal.D8
  else if c =? 57 then Some Decimal.D9
  else None.

(** The longest prefix of digits, and the text after it. *)
Fixpoint readDigits (s : JsString) : Decimal.uint * JsString :=
  match s with
  | c :: rest =>
      match digitOf c with
      | Some digit => let '(u, r) := readDigits rest in (digit u, r)
      | None => (Decimal.Nil, s)
      end
  | [] => (Decimal.Nil, [])
  end.

(** The numeral goes on with a fraction or an exponent. *)
Definition continuesNumber (s : JsString) : bool :=
  match s with
  | c :: _ => (c =? 46) || (c =? 101) || (c =? 69)
  | [] => false
  end.

(** JSON's [int]: [0], or a non-zero digit followed by digits. *)
Definition wellFormedInt (u : Decimal.uint) : bool :=
  match u with
  | Decimal.Nil => false
  | Decimal.D0 Decimal.Nil => true
  | Decimal.D0 _ => false
  | _ => true
  end.

(** JSON's optional [frac]: a full stop and at least one digit. The result
    is the digits, none when there is no fraction. *)
Definition parseFraction (s : JsString) : option (Decimal.uint * JsString) :=
  match s with
  | c :: r =>
      if c =? 46 then
        match readDigits r with
        | (Decimal.Nil, _) => None
        | (f, r') => Some (f, r')
        end
      else Some (Decimal.Nil, s)
  | [] => Some (Decimal.Nil, s)
  end.

(** JSON's optional [exp]: the letter e, an optional sign and at least one
    digit. The result is the exponent, 0 when there is none. *)
Definition parseExponent (s : JsString) : option (Z * JsString) :=
  match s with
  | c :: r =>
      if (c =? 101) || (c =? 69) then
        let '(negative, r1) :=
          match r with
          | sign :: r' =>
              if sign =? 45 then (true, r')
              else if sign =? 43 then (false, r')
              else (false, r)
          | [] => (false, r)
          end in
        match readDigits r1 with
        | (Decimal.Nil, _) => None
        | (d, r2) =>
            let e := Z.of_N (N.of_uint d) in
            Some (if negative then (- e)%Z else e, r2)
        end
      else Some (0%Z, s)
  | [] => Some (0%Z, s)
  end.

(** The number [m * 10 ^ e]: a [JNum] when it is an integer. *)
Definition decimalValue (m e : Z) : Json :=
  if (0 <=? e)%Z then JNum (m * 10 ^ e)%Z
  else if (m mod 10 ^ (- e) =? 0)%Z then JNum (m / 10 ^ (- e))%Z
  else JDec m e.

(** JSON's [number]: an optional minus, [int], optional [frac] and [exp]. *)
Definition parseNumber (s : JsString) : option (Json * JsString) :=
  let '(negative, s1) :=
    match s with
    | c :: r => if c =? 45 then (true, r) else (false, s)
    | [] => (false, s)
    end in
  let '(u, rest) := readDigits s1 in
  if wellFormedInt u
  then
    let n := Z.of_N (N.of_uint u) in
    if continuesNumber rest
    then
      '(f, rest1) ← parseFraction rest;
      '(e, rest2) ← parseExponent rest1;
      let scale := Z.of_nat (Decimal.nb_digits f) in
      let m := (n * 10 ^ scale + Z.of_N (N.of_uint f))%Z in
      Some (decimalValue (if negative then (- m)%Z else m) (e - scale)%Z,
            rest2)
    else Some (JNum (if negative then (- n)%Z else n), rest)
  else None.

Fixpoint stripPrefix (p s : JsString) : option JsString :=
  match p, s with
  | [], _ => Some s
  | a :: p', b :: s' => if a =? b then stripPrefix p' s' else None
  | _ :: _, [] => None
  end.

Fixpoint parseValue (fuel : nat) (s : JsString) : option (Json * JsString) :=
  match fuel with
  | O => None
  | S fuel =>
      match skipWhitespace s with
      | [] => None
      | c :: rest =>
          if c =? 123 then
            match skipWhitespace rest with
            | d :: r =>
                if d =? 125 then Some (JObj [], r)
                else '(kvs, r') ← parseMembers fuel rest; Some (JObj kvs, r')
            | [] => None
            end
          else if c =? 91 then
            match skipWhitespace rest with
            | d :: r =>
                if d =? 93 then Some (JArr [], r)
                else '(xs, r') ← parseElements fuel rest; Some (JArr xs, r')
            | [] => None
            end
          else if c =? 34 then
            '(str, r) ← parseUnits rest; Some (JStr str, r)
          else if c =? 116 then
            r ← stripPrefix (js "true") (c :: rest); Some (JBool true, r)
          else if c =? 102 then
            r ← stripPrefix (js "false") (c :: rest); Some (JBool false, r)
          else if c =? 110 then
            r ← stripPrefix (js "null") (c :: rest); Some (JNull, r)
          else parseNumber (c :: rest)
      end
  end
with parseElements (fuel : nat) (s : JsString)
    : option (list Json * JsString) :=
  match fuel with
  | O => None
  | S fuel =>
      '(x, r) ← parseValue fuel s;
      match skipWhitespace r with
      | c :: r' =>
          if c =? 44 then
            '(xs, r'') ← parseElements fuel r'; Some (x :: xs, r'')
          else if c =? 93 then Some ([x], r')
          else None
      | [] => None
      end
  end
with parseMembers (fuel : nat) (s : JsString)
    : option (list (JsString * Json) * JsString) :=
  match fuel with
  | O => None
  | S fuel =>
      match skipWhitespace s with
      | q :: s1 =>
          if q =? 34 then
            '(k, r) ← parseUnits s1;
            match skipWhitespace r with
            | colon :: r1 =>
                if colon =? 58 then
                  '(v, r2) ← parseValue fuel r1;
                  match skipWhitespace r2 with
                  | c :: r3 =>
                      if c =? 44 then
                        '(kvs, r4) ← parseMembers fuel r3;
                        Some ((k, v) :: kvs, r4)
                      else if c =? 125 then Some ([(k, v)], r3)
                      else None
                  | [] => None
                  end
                else None
            | [] => None
            end
          else None
      | [] => None
      end
  end.

Definition parse (text : JsString) : option Json :=
  '(v, rest) ← parseValue (S (length text)) text;
  match skipWhitespace rest with
  | [] => Some v
  | _ :: _ => None
  end.

(** The member of an object that [JSON.parse] keeps for a name: the last one. *)
Fixpoint getField (name : JsString) (members : list (JsString * Json))
    : option Json :=
  match members with
  | [] => None
  | (k, v) :: rest =>
      match getField name rest with
      | Some v' => Some v'
      | None => if eqUnits name k then Some v else None
      end
  end.

(** Number of nodes of a value, separators counted: the fuel its text needs. *)
Fixpoint jsize (j : Json) : nat :=
  match j with
  | JArr xs => S (list_sum (map (fun x => S (jsize x)) xs))
  | JObj kvs => S (list_sum (map (fun '(_, v) => S (jsize v)) kvs))
  | _ => 1%nat
  end.

End JSON.


Import JSON.

(** ** The browser's [localStorage]

    A key-value store of strings whose operations may throw. Which calls
    throw is a property of the environment (storage disabled, quota
    exceeded, a mocked prototype), so the store carries it: [setItemThrows]
    and [getItemThrows] say what a call with these arguments throws, if
    anything. [writes] is the journal of the [setItem] and [removeItem]
    calls made so far, most recent first. *)

Record Exception := {
  name : JsString;
  message : JsString
}.

Inductive StorageCall :=
| SetItem (key value : JsString)
| RemoveItem (key : JsString).

Record Storage := {
  items : gmap JsString JsString;
  setItemThrows : JsString -> JsString -> option Exception;
  getItemThrows : JsString -> option Exception;
  writes : list StorageCall
}.

(** The result of a call that may throw. *)
Inductive Completion (A : Type) :=
| Threw (e : Exception)
| Returned (a : A).
Arguments Threw {A} e.
Arguments Returned {A} a.

Definition getItem (key : JsString) (st : Storage)
    : Completion (option JsString) :=
  match getItemThrows st key with
  | Some e => Threw e
  | None => Returned (items st !! key)
  end.

Definition setItem (key value : JsString) (st : Storage)
    : Completion unit * Storage :=
  match setItemThrows st key value with
  | Some e =>
      (Threw e,
       {| items := items st;
          setItemThrows := setItemThrows st;
          getItemThrows := getItemThrows st;
          writes := SetItem key value :: writes st |})
  | None =>
      (Returned tt,
       {| items := <[key := value]> (items st);
          setItemThrows := setItemThrows st;
          getItemThrows := getItemThrows st;
          writes := SetItem key value :: writes st |})
  end.

Definition removeItem (key : JsString) (st : Storage) : Storage :=
  {| items := delete key (items st);
     setItemThrows := setItemThrows st;
     getItemThrows := getItemThrows st;
     writes := RemoveItem key :: writes st |}.

(** An empty store on which no call throws. *)
Definition emptyStorage : Storage :=
  {| items := ∅;
     setItemThrows := fun _ _ => None;
     getItemThrows := fun _ => None;
     writes := [] |}.

(** ** [src/services/storageService.ts]

    The file is not among the sources; the gateway below follows the
    specification (sections 4.2, 6 and 7) and the stored texts of
    [storageService.test.ts]. *)

Module storageService.

(** Modelled from the spec: the [Result] of a save operation of
    [storageService.ts], [{ success, error }]. *)
Record Result := {
  success : bool;
  error : option JsString
}.

(** Modelled from the spec: the state of [storageService.ts], which is the
    store it writes to and the single slot that holds the most recent error
    message. *)
Record Gateway := {
  localStorage : Storage;
  lastError : option JsString
}.

(** Modelled from the spec: the key of the log history in
    [storageService.ts] (section 6). *)
Definition LOGS_KEY : JsString := js "emotionagotchi_logs".

(** Modelled from the spec: the key of the creature state (section 6). *)
Definition CREATURE_KEY : JsString := js "emotionagotchi_creature".

(** Modelled from the spec: the key of the safety score (section 6). *)
Definition SAFETY_KEY : JsString := js "emotionagotchi_safety".

(** *** The stored shapes *)

(** Modelled from the spec: the stored form of an action tag. *)
Definition actionName (a : EmotionAction) : JsString :=
  match a with
  | expressed => js "expressed"
  | suppressed => js "suppressed"
  end.

(** Modelled from the spec: the stored form of an animation label. *)
Definition animationName (a : Animation) : JsString :=
  match a with
  | idle => js "idle"
  | grow => js "grow"
  | curl => js "curl"
  | celebrate => js "celebrate"
  end.

(** Modelled from the spec: the stored form of a log, section 6's
    [{id, text, action, timestamp}], the object literal of [addLog]. *)
Definition logToJson (log : EmotionLog) : Json :=
  JObj [(js "id", JStr (id log));
        (js "text", JStr (text log));
        (js "action", JStr (actionName (action log)));
        (js "timestamp", JNum (timestamp log))].

(** Modelled from the spec: the stored form of a creature state, section
    6's [{brightness, size, animation}], the object literal of
    [calculateNewState]. *)
Definition creatureStateToJson (state : CreatureState) : Json :=
  JObj [(js "brightness", JNum (brightness state));
        (js "size", JNum (size state));
        (js "animation", JStr (animationName (animation state)))].

(** Modelled from the spec: a required field that must hold a string, for
    the shape checks of section 4.2. *)
Definition stringField (key : JsString) (members : list (JsString * Json))
    : option JsString :=
  match getField key members with
  | Some (JStr s) => Some s
  | _ => None
  end.

(** Modelled from the spec: a required field that must hold a number. *)
Definition numberField (key : JsString) (members : list (JsString * Json))
    : option Z :=
  match getField key members with
  | Some (JNum n) => Some n
  | _ => None
  end.

(** Modelled from the spec: the action tag a stored string stands for, if
    any. *)
Definition actionOfName (s : JsString) : option EmotionAction :=
  if eqUnits s (js "expressed") then Some expressed
  else if eqUnits s (js "suppressed") then Some suppressed
  else None.

(** Modelled from the spec: the animation label a stored string stands
    for, if any. *)
Definition animationOfName (s : JsString) : option Animation :=
  if eqUnits s (js "idle") then Some idle
  else if eqUnits s (js "grow") then Some grow
  else if eqUnits s (js "curl") then Some curl
  else if eqUnits s (js "celebrate") then Some celebrate
  else None.

(** Modelled from the spec: the shape check of a stored log, section 6's
    [{id, text, action, timestamp}]; a value of any other shape is refused. *)
Definition logOfJson (j : Json) : option EmotionLog :=
  match j with
  | JObj members =>
      i ← stringField (js "id") members;
      t ← stringField (js "text") members;
      a ← stringField (js "action") members ≫= actionOfName;
      ts ← numberField (js "timestamp") members;
      Some {| id := i; text := t; action := a; timestamp := ts |}
  | _ => None
  end.

(** Modelled from the spec: the shape check of the stored logs (section 4.2:
    the data must be a sequence). *)
Definition logsOfJson (j : Json) : option (list EmotionLog) :=
  match j with
  | JArr elements => mapM logOfJson elements
  | _ => None
  end.

(** Modelled from the spec: the shape check of a stored creature state
    (section 4.2: no required field may be missing). *)
Definition creatureStateOfJson (j : Json) : option CreatureState :=
  match j with
  | JObj members =>
      b ← numberField (js "brightness") members;
      s ← numberField (js "size") members;
      a ← stringField (js "animation") members ≫= animationOfName;
      Some {| brightness := b; size := s; animation := a |}
  | _ => None
  end.

(** Modelled from the spec: the shape check of a stored safety score
    (section 4.2: it must be numeric). The score of the spec is an integer
    ([loadSafetyScore() -> integer]); a stored number that is not one has no
    place in it and is refused as well. *)
Definition safetyScoreOfJson (j : Json) : option Z :=
  match j with
  | JNum n => Some n
  | _ => None
  end.

(** *** Saving *)

(** Modelled from the spec: the quota-exceeded condition of section 4.2,
    the [DOMException] named [QuotaExceededError] of the test-suite. *)
Definition isQuotaExceeded (e : Exception) : bool :=
  eqUnits (name e) (js "QuotaExceededError").

(** Modelled from the spec: the message of a failed write (section 4.2). The
    spec fixes that a message is returned and that the one of a
    quota-exceeded condition contains [Storage full]; the exception's own
    message stands for the others. *)
Definition errorMessage (e : Exception) : JsString :=
  if isQuotaExceeded e then js "Storage full" else message e.

(** Modelled from the spec: the common path of the three save operations
    (section 4.2). The value is serialised and written under its key; a
    write that throws is caught, reported as [{success: false, error}] and
    its message kept as the last error. A success leaves the last error as
    it was. *)
Definition save (key : JsString) (value : Json) (g : Gateway)
    : Result * Gateway :=
  match setItem key (stringify value) (localStorage g) with
  | (Returned _, st) =>
      ({| success := true; error := None |},
       {| localStorage := st; lastError := lastError g |})
  | (Threw e, st) =>
      ({| success := false; error := Some (errorMessage e) |},
       {| localStorage := st; lastError := Some (errorMessage e) |})
  end.

(** Modelled from the spec: [saveLogs(logs) -> Result]. *)
Definition saveLogs (logs : list EmotionLog) (g : Gateway) : Result * Gateway :=
  save LOGS_KEY (JArr (map logToJson logs)) g.

(** Modelled from the spec: [saveCreatureState(state) -> Result]. *)
Definition saveCreatureState (state : CreatureState) (g : Gateway)
    : Result * Gateway :=
  save CREATURE_KEY (creatureStateToJson state) g.

(** Modelled from the spec: [saveSafetyScore(score) -> Result]. *)
Definition saveSafetyScore (score : Z) (g : Gateway) : Result * Gateway :=
  save SAFETY_KEY (JNum score) g.

(** Modelled from the spec: retrieval of the last error encountered. *)
Definition getLastError (g : Gateway) : option JsString := lastError g.

(** *** Loading *)

(** Modelled from the spec: the defensive read of section 4.2. The stored
    text is read, parsed and checked for its shape; when the store cannot be
    read, holds nothing under the key, or holds a text that does not parse
    or has the wrong shape, the result is [None] and the caller substitutes
    the safe default of the kind. Nothing is thrown and nothing is written. *)
Definition load {A : Type} (key : JsString) (ofJson : Json -> option A)
    (g : Gateway) : option A :=
  match getItem key (localStorage g) with
  | Threw _ => None
  | Returned None => None
  | Returned (Some data) => parse data ≫= ofJson
  end.

(** Modelled from the spec: [loadLogs()], an empty sequence by default. *)
Definition loadLogs (g : Gateway) : list EmotionLog :=
  default [] (load LOGS_KEY logsOfJson g).

(** Modelled from the spec: [loadCreatureState()], absent by default. *)
Definition loadCreatureState (g : Gateway) : option CreatureState :=
  load CREATURE_KEY creatureStateOfJson g.

(** Modelled from the spec: [loadSafetyScore()], 0 by default. *)
Definition loadSafetyScore (g : Gateway) : Z :=
  default 0 (load SAFETY_KEY safetyScoreOfJson g).

(** Modelled from the spec: [clearAll()] removes the three records. *)
Definition clearAll (g : Gateway) : Gateway :=
  {| localStorage :=
       removeItem SAFETY_KEY
         (removeItem CREATURE_KEY (removeItem LOGS_KEY (localStorage g)));
     lastError := lastError g |}.

(** A text put under a key behind the gateway's back, as the test-suite
    does ([localStorage.setItem(key, data)] on a store that accepts it). *)
Definition tamper (key data : JsString) (g : Gateway) : Gateway :=
  {| localStorage :=
       {| items := <[key := data]> (items (localStorage g));
          setItemThrows := setItemThrows (localStorage g);
          getItemThrows := getItemThrows (localStorage g);
          writes := writes (localStorage g) |};
     lastError := lastError g |}.

(** The shapes section 4.2 requires of the three records, as properties of
    the parsed value alone. *)

(** The logs data is a sequence ([Array.isArray]). *)
Definition isSequence (j : Json) : bool :=
  match j with
  | JArr _ => true
  | _ => false
  end.

(** The value is an object that has a member of this name. *)
Definition hasField (name : JsString) (j : Json) : bool :=
  match j with
  | JObj members =>
      match getField name members with
      | Some _ => true
      | None => false
      end
  | _ => false
  end.

(** The creature-state data has its three required fields. *)
Definition hasRequiredFields (j : Json) : bool :=
  hasField (js "brightness") j && hasField (js "size") j
  && hasField (js "animation") j.

(** The safety score is numeric ([typeof] gives [number]). *)
Definition isNumeric (j : Json) : bool :=
  match j with
  | JNum _ | JDec _ _ => true
  | _ => false
  end.

(** What makes the record under [key] corrupted, [hasShape] being the shape
    required of it: the store throws on reading it, its text is not JSON,
    or the parsed value does not have the shape. *)
Inductive Corrupted (key : JsString) (hasShape : Json -> bool)
    (g : Gateway) : Prop :=
| Unreadable (e : Exception) :
    getItemThrows (localStorage g) key = Some e -> Corrupted key hasShape g
| Unparseable (data : JsString) :
    items (localStorage g) !! key = Some data ->
    parse data = None -> Corrupted key hasShape g
| WrongShape (data : JsString) (j : Json) :
    items (localStorage g) !! key = Some data ->
    parse data = Some j -> hasShape j = false -> Corrupted key hasShape g.

(** The two gateways hold the same thing, readable or not, under every
    key but [key]: whatever differs between them is confined to [key]. *)
Definition agreeOutside (key : JsString) (g g' : Gateway) : Prop :=
  forall k, k <> key ->
    items (localStorage g') !! k = items (localStorage g) !! k
    /\ getItemThrows (localStorage g') k = getItemThrows (localStorage g) k.

(** The underlying write of [value] under [key] throws [e]. *)
Definition writeThrows (g : Gateway) (key : JsString) (value : Json)
    (e : Exception) : Prop :=
  setItemThrows (localStorage g) key (stringify value) = Some e.

(** A save operation reported the failure [e]: it returned
    [{success: false, error}], the message is the one [getLastError] gives
    afterwards, and it contains [Storage full] when [e] is a quota-exceeded
    condition. *)
Definition reportsFailure (e : Exception) (out : Result * Gateway) : Prop :=
  exists msg : JsString,
    fst out = {| success := false; error := Some msg |}
    /\ getLastError (snd out) = Some msg
    /\ (isQuotaExceeded e = true -> includes msg (js "Storage full") = true).

End storageService.

(** ** [src/context/EmotionContext.tsx]

    The provider's React state ([logs], [creatureState], [safetyScore],
    [isInitialized]) together with the gateway it persists to. A state is
    the one a render sees: every handler below maps the state of the render
    it was created in to the state of the next render. *)

Record Session := {
  logs : list EmotionLog;
  creatureState : CreatureState;
  safetyScore : Z;
  isInitialized : bool;
  gateway : storageService.Gateway
}.

(** The state before the mount effect has run: the [useState] defaults. *)
Definition initialSession (g : storageService.Gateway) : Session :=
  {| logs := [];
     creatureState := getInitialState;
     safetyScore := 0;
     isInitialized := false;
     gateway := g |}.

(** The mount effect: load the three records, fall back to the initial
    creature state when none is stored. *)
Definition mount (s : Session) : Session :=
  let loadedLogs := storageService.loadLogs (gateway s) in
  let loadedCreatureState := storageService.loadCreatureState (gateway s) in
  let loadedSafetyScore := storageService.loadSafetyScore (gateway s) in
  {| logs := loadedLogs;
     creatureState := default getInitialState loadedCreatureState;
     safetyScore := loadedSafetyScore;
     isInitialized := true;
     gateway := gateway s |}.

(** [addLog(text, action)]. [newId] is the value of [uuidv4()] and [now] the
    value of [Date.now()] at the call. *)
Definition addLog (newId : JsString) (now : Z) (text : JsString)
    (action : EmotionAction) (s : Session) : Session :=
  let newLog :=
    {| id := newId; text := text; action := action; timestamp := now |} in
  let updatedLogs := logs s ++ [newLog] in
  let newCreatureState := calculateNewState (creatureState s) action in
  let newSafetyScore :=
    match action with
    | expressed => safetyScore s + 1
    | suppressed => safetyScore s
    end in
  let g1 := snd (storageService.saveLogs updatedLogs (gateway s)) in
  let g2 := snd (storageService.saveCreatureState newCreatureState g1) in
  let g3 := snd (storageService.saveSafetyScore newSafetyScore g2) in
  {| logs := updatedLogs;
     creatureState := newCreatureState;
     safetyScore := newSafetyScore;
     isInitialized := isInitialized s;
     gateway := g3 |}.

(** [clearLogs()]. *)
Definition clearLogs (s : Session) : Session :=
  {| logs := [];
     creatureState := getInitialState;
     safetyScore := 0;
     isInitialized := isInitialized s;
     gateway := storageService.clearAll (gateway s) |}.

(** A sequence of accepted actions processed one render after the other;
    each entry is the log its [addLog] call creates. *)
Definition addLogs (entries : list EmotionLog) (s : Session) : Session :=
  fold_left
    (fun s entry => addLog (id entry) (timestamp entry) (text entry) (action entry) s)
    entries s.

Definition isExpressed (entry : EmotionLog) : bool :=
  match action entry with
  | expressed => true
  | suppressed => false
  end.

(** The number of expressed actions in a sequence. *)
Definition countExpressed (entries : list EmotionLog) : nat :=
  length (List.filter isExpressed entries).

(** ** [src/app/page.tsx] *)

(** The page's own state ([inputValue]) and the session it reads from
    [useEmotion()]. *)
Record Page := {
  inputValue : JsString;
  session : Session
}.

(** [handleAction(action)]. [newId] and [now] are the values [addLog] gets
    from [uuidv4()] and [Date.now()] when the handler calls it. *)
Definition handleAction (newId : JsString) (now : Z) (action : EmotionAction)
    (p : Page) : Page :=
  if (length (trim (inputValue p)) =? 0)%nat then p
  else
    {| inputValue := [];
       session := addLog newId now (inputValue p) action (session p) |}.

(** ** Sequences of actions and of session operations *)

(** The state after the actions have been applied one after the other: the
    last state of [trajectory], the start state when there is no action. *)
Definition applyActions (actions : list EmotionAction) (state : CreatureState)
    : CreatureState :=
  fold_left calculateNewState actions state.

(** The two mutators the provider hands out through its context value. *)
Inductive SessionOp :=
| AddLog (entry : EmotionLog)
| ClearLogs.

Definition applyOp (op : SessionOp) (s : Session) : Session :=
  match op with
  | AddLog entry =>
      addLog (id entry) (timestamp entry) (text entry) (action entry) s
  | ClearLogs => clearLogs s
  end.

(** The operations processed one render after the other. *)
Definition runSession (ops : list SessionOp) (s : Session) : Session :=
  fold_left (fun s op => applyOp op s) ops s.

(** The derived state agrees with the history: the score counts the
    expressed logs, and the creature is the default snapshot moved by the
    actions of the logs, oldest first. *)
Definition coherent (s : Session) : Prop :=
  safetyScore s = Z.of_nat (countExpressed (logs s))
  /\ creatureState s = applyActions (map action (logs s)) getInitialState.

(** The record under [key] can be written and read: no [setItem] call on
    this key throws, and [getItem] on it does not throw. *)
Definition usable (key : JsString) (st : Storage) : Prop :=
  (forall value, setItemThrows st key value = None)
  /\ getItemThrows st key = None.

(** A gateway on an empty store that is full for the log history: every
    write under the logs key throws a quota-exceeded condition, the other
    keys can be written and read. *)
Definition logsQuotaGateway : storageService.Gateway :=
  {| storageService.localStorage :=
       {| items := ∅;
          setItemThrows := fun key _ =>
            if eqUnits key storageService.LOGS_KEY
            then Some {| name := js "QuotaExceededError";
                         message := js "Quota exceeded" |}
            else None;
          getItemThrows := fun _ => None;
          writes := [] |};
     storageService.lastError := None |}.

(** ** [src/components/EmotionInput/EmotionInput.tsx] *)



(** ** [src/app/page.tsx], the input and the buttons *)



(** [isButtonDisabled]. *)
Definition isButtonDisabled (p : Page) : bool :=
  (length (trim (inputValue p)) =? 0)%nat.





(** ** [src/components/LogHistory/LogHistory.tsx] *)

(** [Array.prototype.sort] with a comparator: a stable sort, which puts [x]
    before [y] when [compare x y] is negative and keeps the order of the
    elements the comparator does not tell apart. Insertion from the right
    computes it. *)
Fixpoint insertBy {A : Type} (compare : A -> A -> Z) (x : A) (l : list A)
    : list A :=
  match l with
  | [] => [x]
  | y :: l' =>
      if compare x y <=? 0 then x :: l else y :: insertBy compare x l'
  end.

Definition sortBy {A : Type} (compare : A -> A -> Z) (l : list A) : list A :=
  fold_right (insertBy compare) [] l.

(** [[...logs].sort((a, b) => b.timestamp - a.timestamp)]. *)
Definition sortedLogs (logs : list EmotionLog) : list EmotionLog :=
  sortBy (fun a b => timestamp b - timestamp a) logs.

(** What the component renders: the empty-state message, or the list whose
    items are rendered from these logs in this order. *)
Inductive LogHistoryView :=
| EmptyState
| LogList (items : list EmotionLog).

(** The time values a [Date] holds: at most 8.64e15 milliseconds on either
    side of the epoch. [new Date(t)] of any other number is an invalid
    date. *)
Definition maxTimeValue : Z := 8640000000000000.

Definition isValidTime (t : Z) : bool := Z.abs t <=? maxTimeValue.

(** The [RangeError] that [toISOString] throws on an invalid date. *)
Definition invalidTimeValue : Exception :=
  {| name := js "RangeError"; message := js "Invalid time value" |}.

(** One item of the list. Its [dateTime] attribute is
    [new Date(log.timestamp).toISOString()], which throws when the
    timestamp is not a valid time value; [formatTimestamp], the text and the
    icon are computed from the log without throwing. *)
Definition renderItem (log : EmotionLog) : Completion EmotionLog :=
  if isValidTime (timestamp log) then Returned log
  else Threw invalidTimeValue.

(** [sortedLogs.map((log) => ...)]: the items are rendered from the first to
    the last, and the first exception ends the render. *)
Fixpoint renderItems (logs : list EmotionLog)
    : Completion (list EmotionLog) :=
  match logs with
  | [] => Returned []
  | log :: rest =>
      match renderItem log with
      | Threw e => Threw e
      | Returned item =>
          match renderItems rest with
          | Threw e => Threw e
          | Returned items => Returned (item :: items)
          end
      end
  end.

Definition LogHistory (logs : list EmotionLog) : Completion LogHistoryView :=
  if (length logs =? 0)%nat then Returned EmptyState
  else
    match renderItems (sortedLogs logs) with
    | Threw e => Threw e
    | Returned items => Returned (LogList items)
    end.

(** The logs of a list that carry the timestamp [t], in the order of the
    list. *)
Definition withTimestamp (t : Z) (logs : list EmotionLog) : list EmotionLog :=
  List.filter (fun log => timestamp log =? t) logs.

(** ** [src/utils/accessibility.test.ts] *)

(** [hexToRgb]: an optional [#] (code unit 35) and exactly six hexadecimal
    digits, upper or lower case, read two by two with [parseInt(_, 16)];
    [None] stands for the thrown [Error]. *)
Definition hexPair (h l : N) : option N :=
  a ← hexValue h; b ← hexValue l; Some (16 * a + b)%N.

Definition hexToRgb (hex : JsString) : option (N * N * N) :=
  let digits :=
    match hex with
    | c :: rest => if (c =? 35)%N then rest else hex
    | [] => hex
    end in
  match digits with
  | [r1; r2; g1; g2; b1; b2] =>
      r ← hexPair r1 r2; g ← hexPair g1 g2; b ← hexPair b1 b2;
      Some (r, g, b)
  | _ => None
  end.

(** The units that the class [[a-f\d]] matches under the flag [i], listed:
    the ten decimal digits and the letters a to f in both cases. *)
Definition isHexDigit (c : N) : bool :=
  existsb (N.eqb c) (js "0123456789abcdefABCDEF").

(** The place of a unit in a string, counted from 0. *)
Fixpoint indexOf (c : N) (s : JsString) : option N :=
  match s with
  | [] => None
  | d :: rest => if (c =? d)%N then Some 0%N else N.succ <$> indexOf c rest
  end.

(** The value of a hexadecimal digit: its place among the sixteen digits,
    in lower or in upper case. *)
Definition hexDigitValue (c : N) : N :=
  match indexOf c (js "0123456789abcdef") with
  | Some v => v
  | None => default 0%N (indexOf c (js "0123456789ABCDEF"))
  end.

(** A colour written the way the test-suite writes its palette. *)
Definition rgbToHex (r g b : N) : JsString :=
  35%N :: [hexDigit (r / 16); hexDigit (r mod 16);
           hexDigit (g / 16); hexDigit (g mod 16);
           hexDigit (b / 16); hexDigit (b mod 16)]%N.

(** ** Notions used to state the lemmas on [JSON] *)

Section JsonNotions.
Local Open Scope N_scope.

Definition isDigit (c : N) : bool := (48 <=? c) && (c <=? 57).

(** A text before which a numeral ends: it does not go on with a digit, a
    fraction or an exponent. *)
Definition endsNumber (s : JsString) : Prop :=
  match s with
  | c :: _ => isDigit c = false /\ c <> 46 /\ c <> 101 /\ c <> 69
  | [] => True
  end.

(** The first code unit of a serialised value. *)
Definition startsValue (c : N) : Prop :=
  c = 110 \/ c = 116 \/ c = 102 \/ c = 45 \/ isDigit c = true
  \/ c = 34 \/ c = 91 \/ c = 123.

Definition sizeElements (xs : list Json) : nat :=
  list_sum (map (fun x => S (jsize x)) xs).

Definition sizeMembers (kvs : list (JsString * Json)) : nat :=
  list_sum (map (fun '(_, v) => S (jsize v)) kvs).

(** No number of [v] is a [JDec]: every value the program stores is such a
    value. *)
Fixpoint integral (v : Json) : bool :=
  match v with
  | JDec _ _ => false
  | JArr xs => forallb integral xs
  | JObj kvs => forallb (fun '(_, x) => integral x) kvs
  | _ => true
  end.

(** [v] is read back from its own text, whatever follows it. *)
Definition parsesBack (v : Json) : Prop :=
  forall fuel rest, (jsize v <= fuel)%nat -> endsNumber rest ->
    parseValue fuel (stringify v ++ rest) = Some (v, rest).

End JsonNotions.

(** ** Stores and gateways of the examples *)

(** A gateway on an empty store on which no call throws. *)
Definition freshGateway : storageService.Gateway :=
  {| storageService.localStorage := emptyStorage;
     storageService.lastError := None |}.

(** [new DOMException('Quota exceeded', 'QuotaExceededError')]. *)
Definition quotaExceeded : Exception :=
  {| name := js "QuotaExceededError"; message := js "Quota exceeded" |}.

(** [new Error('localStorage is not available')]. *)
Definition notAvailable : Exception :=
  {| name := js "Error"; message := js "localStorage is not available" |}.

(** A gateway on a store that holds [stored] and whose every [setItem] and
    [getItem] call throws [e]. *)
Definition failingGateway (stored : gmap JsString JsString) (e : Exception)
    : storageService.Gateway :=
  {| storageService.localStorage :=
       {| items := stored;
          setItemThrows := fun _ _ => Some e;
          getItemThrows := fun _ => Some e;
          writes := [] |};
     storageService.lastError := None |}.

(** The session of a first visit, once mounted. *)
Definition firstVisit : Session := mount (initialSession freshGateway).

(** * Theorems *)

Ltac bool_cases :=
  repeat match goal with
  | |- context [N.eqb ?a ?b] => destruct (N.eqb_spec a b); try lia
  | |- context [N.ltb ?a ?b] => destruct (N.ltb_spec a b); try lia
  | |- context [N.leb ?a ?b] => destruct (N.leb_spec a b); try lia
  end.

(** ** The state transition function *)

Section CreatureStateFacts.

Lemma calculateNewState_inBounds s a : inBounds (calculateNewState s a).
Proof. unfold inBounds, calculateNewState; simpl. lia. Qed.

(** C1. For every creature state, in or out of [0, 100], an expressed action
    yields brightness [clamp (brightness + 5) 0 100] and size
    [clamp (size + 2) 0 100], a suppressed one brightness
    [clamp (brightness - 3) 0 100] and size [clamp (size - 1) 0 100]; the
    function is total and its result is within bounds. *)
Theorem calculateNewState_clamps (s : CreatureState) :
  brightness (calculateNewState s expressed) = clamp (brightness s + 5) 0 100
  /\ size (calculateNewState s expressed) = clamp (size s + 2) 0 100
  /\ brightness (calculateNewState s suppressed) = clamp (brightness s - 3) 0 100
  /\ size (calculateNewState s suppressed) = clamp (size s - 1) 0 100
  /\ forall a, inBounds (calculateNewState s a).
Proof.
  unfold clamp. repeat split; try reflexivity;
    apply calculateNewState_inBounds.
Qed.

(** C2. The animation of the result is determined by the action and the
    resulting brightness alone: celebrate for an expressed action that
    reaches brightness 100, grow for an expressed action that stays below
    100, curl for a suppressed action whatever the resulting brightness. The
    resulting brightness never exceeds 100, so the cases are exhaustive, and
    two transitions with the same action and the same resulting brightness
    have the same animation. *)
Theorem calculateNewState_animation (s : CreatureState) (a : EmotionAction) :
  let s' := calculateNewState s a in
  (a = expressed -> brightness s' = 100 -> animation s' = celebrate)
  /\ (a = expressed -> brightness s' < 100 -> animation s' = grow)
  /\ (a = suppressed -> animation s' = curl)
  /\ brightness s' <= 100
  /\ (forall s2, brightness (calculateNewState s2 a) = brightness s' ->
        animation (calculateNewState s2 a) = animation s').
Proof.
  cbv zeta. split; [|split; [|split; [|split]]].
  - intros -> H. simpl in *. rewrite H. reflexivity.
  - intros -> H. simpl in *.
    destruct (Z.eqb_spec (Z.max 0 (Z.min 100 (brightness s + 5))) 100); [lia|].
    reflexivity.
  - intros ->. reflexivity.
  - destruct a; simpl; lia.
  - intros s2 H. destruct a; simpl in *; [|reflexivity].
    rewrite H. reflexivity.
Qed.

Lemma calculateNewState_animation_witness :
  animation (calculateNewState {| brightness := 95; size := 50; animation := idle |}
               expressed) = celebrate
  /\ animation (calculateNewState getInitialState expressed) = grow
  /\ animation (calculateNewState getInitialState suppressed) = curl.
Proof.
  split; [|split].
  - apply (calculateNewState_animation
             {| brightness := 95; size := 50; animation := idle |} expressed);
      reflexivity.
  - apply (calculateNewState_animation getInitialState expressed); reflexivity.
  - apply (calculateNewState_animation getInitialState suppressed); reflexivity.
Defined.

Lemma trajectory_inBounds actions : forall s,
  Forall inBounds (trajectory s actions).
Proof.
  induction actions as [|a rest IH]; intros s; simpl.
  - constructor.
  - constructor; [apply calculateNewState_inBounds | apply IH].
Qed.

(** C3. Whatever sequence of actions is applied step by step from the
    default snapshot [{50, 50, idle}], the brightness and the size of the
    state after every step lie within [0, 100]. *)
Theorem trajectory_bounded (actions : list EmotionAction) :
  Forall inBounds (trajectory getInitialState actions).
Proof. apply trajectory_inBounds. Qed.

(** C6, as stated, fails: from the default snapshot a second expressed
    action moves the creature again. *)
Lemma calculateNewState_not_idempotent :
  calculateNewState (calculateNewState getInitialState expressed) expressed
  <> calculateNewState getInitialState expressed.
Proof. discriminate. Qed.

(** C6, amended. The transition is a function of its inputs, and applying
    the same action a second time changes nothing exactly when the first
    application saturates: brightness at least 95 and size at least 98
    before an expressed action, brightness at most 3 and size at most 1
    before a suppressed one. In particular [{100, 100, celebrate}] is
    unchanged by an expressed action. *)
Theorem calculateNewState_twice (s : CreatureState) (a : EmotionAction) :
  (calculateNewState (calculateNewState s a) a = calculateNewState s a
   <-> saturates s a)
  /\ calculateNewState
       {| brightness := 100; size := 100; animation := celebrate |} expressed
     = {| brightness := 100; size := 100; animation := celebrate |}.
Proof.
  split; [|reflexivity].
  destruct s as [b z an]. destruct a; unfold saturates, calculateNewState; simpl.
  - split.
    + intros H. injection H as Hb Hz _. lia.
    + intros [Hb Hz].
      replace (Z.max 0 (Z.min 100 (b + 5))) with 100 by lia.
      replace (Z.max 0 (Z.min 100 (z + 2))) with 100 by lia.
      reflexivity.
  - split.
    + intros H. injection H as Hb Hz. lia.
    + intros [Hb Hz].
      replace (Z.max 0 (Z.min 100 (b + -3))) with 0 by lia.
      replace (Z.max 0 (Z.min 100 (z + -1))) with 0 by lia.
      reflexivity.
Qed.

(** C10. Two states that agree on brightness and size give the same result
    under every action, whatever their animations: the result is a function
    of brightness, size and action only. Its animation is never idle. *)
Theorem calculateNewState_ignores_animation
    (s1 s2 : CreatureState) (a : EmotionAction) :
  brightness s1 = brightness s2 -> size s1 = size s2 ->
  calculateNewState s1 a = calculateNewState s2 a
  /\ animation (calculateNewState s1 a) <> idle.
Proof.
  intros Hb Hz. split.
  - unfold calculateNewState. rewrite Hb, Hz. reflexivity.
  - destruct a; simpl; [|discriminate].
    destruct (Z.max 0 (Z.min 100 (brightness s1 + 5)) =? 100); discriminate.
Qed.

Lemma calculateNewState_ignores_animation_witness :
  calculateNewState {| brightness := 95; size := 98; animation := idle |} expressed
  = calculateNewState {| brightness := 95; size := 98; animation := curl |} expressed
  /\ animation (calculateNewState
                  {| brightness := 95; size := 98; animation := idle |} expressed)
     <> idle.
Proof.
  apply (calculateNewState_ignores_animation
           {| brightness := 95; size := 98; animation := idle |}
           {| brightness := 95; size := 98; animation := curl |} expressed);
    reflexivity.
Defined.

End CreatureStateFacts.

(** ** The session coordinator and the page *)

Section SessionFacts.

Lemma addLog_safetyScore newId now tx a s :
  safetyScore (addLog newId now tx a s)
  = match a with
    | expressed => safetyScore s + 1
    | suppressed => safetyScore s
    end.
Proof. reflexivity. Qed.

Lemma addLogs_safetyScore_from entries : forall s,
  safetyScore (addLogs entries s)
  = safetyScore s + Z.of_nat (countExpressed entries).
Proof.
  unfold addLogs, countExpressed.
  induction entries as [|entry rest IH]; intros s; simpl.
  - lia.
  - rewrite IH, addLog_safetyScore. unfold isExpressed.
    destruct (action entry); simpl length; lia.
Qed.

(** C4. From safety score 0, after any sequence of accepted actions the
    score is the number of expressed actions among them: an expressed
    action adds exactly 1, a suppressed one leaves the score as it is, and
    the score is never negative. *)
Theorem addLogs_safetyScore (entries : list EmotionLog) (s : Session) :
  safetyScore s = 0 ->
  safetyScore (addLogs entries s) = Z.of_nat (countExpressed entries)
  /\ 0 <= safetyScore (addLogs entries s)
  /\ (forall newId now tx,
        safetyScore (addLog newId now tx expressed s) = safetyScore s + 1)
  /\ (forall newId now tx,
        safetyScore (addLog newId now tx suppressed s) = safetyScore s).
Proof.
  intros H0. rewrite addLogs_safetyScore_from, H0.
  repeat split; intros; rewrite ?addLog_safetyScore; lia.
Qed.

Lemma addLogs_safetyScore_witness :
  let entries :=
    [ {| id := js "a"; text := js "Feeling happy";
         action := expressed; timestamp := 1 |};
      {| id := js "b"; text := js "Feeling sad";
         action := suppressed; timestamp := 2 |};
      {| id := js "c"; text := js "Feeling excited";
         action := expressed; timestamp := 3 |} ] in
  safetyScore (addLogs entries firstVisit) = 2.
Proof.
  cbv zeta.
  refine (proj1 (addLogs_safetyScore _ _ _)).
  reflexivity.
Defined.

(** C5, as stated, fails: [addLog] itself has no gate. Called with the
    all-whitespace text, it creates a log, changes the creature state,
    raises the score and writes to the store. *)
Lemma addLog_accepts_blank_text :
  let s := firstVisit in
  let s' := addLog (js "uuid") 1700000000000 (js "   ") expressed s in
  trim (js "   ") = []
  /\ length (logs s) = 0%nat /\ length (logs s') = 1%nat
  /\ creatureState s' <> creatureState s
  /\ safetyScore s' <> safetyScore s
  /\ length (writes (storageService.localStorage (gateway s))) = 0%nat
  /\ length (writes (storageService.localStorage (gateway s'))) = 3%nat.
Proof.
  cbv zeta. repeat split; try reflexivity; vm_compute; discriminate.
Qed.

(** C5, amended. The gate is the page's [handleAction], the caller of
    [addLog]: when the input value is empty after trimming, whatever the
    action, the handler returns at once. No log is created, creature state
    and safety score are unchanged, and no write reaches the store. *)
Theorem handleAction_blank_is_noop
    (newId : JsString) (now : Z) (a : EmotionAction) (p : Page) :
  trim (inputValue p) = [] ->
  let p' := handleAction newId now a p in
  logs (session p') = logs (session p)
  /\ creatureState (session p') = creatureState (session p)
  /\ safetyScore (session p') = safetyScore (session p)
  /\ writes (storageService.localStorage (gateway (session p')))
     = writes (storageService.localStorage (gateway (session p)))
  /\ p' = p.
Proof.
  intros Hblank. unfold handleAction. rewrite Hblank. simpl.
  repeat split.
Qed.

Lemma handleAction_blank_is_noop_witness :
  let p := {| inputValue := js "   "; session := firstVisit |} in
  handleAction (js "uuid") 1700000000000 expressed p = p.
Proof.
  cbv zeta.
  refine (proj2 (proj2 (proj2 (proj2
            (handleAction_blank_is_noop _ _ _ _ _))))).
  reflexivity.
Defined.

End SessionFacts.

(** ** [JSON.parse] reads back what [JSON.stringify] writes *)

Section JsonFacts.
Local Open Scope N_scope.

Lemma Json_ind' (P : Json -> Prop) :
  P JNull -> (forall b, P (JBool b)) -> (forall n, P (JNum n)) ->
  (forall m e, P (JDec m e)) ->
  (forall s, P (JStr s)) ->
  (forall xs, Forall P xs -> P (JArr xs)) ->
  (forall kvs, Forall (fun kv => P (snd kv)) kvs -> P (JObj kvs)) ->
  forall j, P j.
Proof.
  intros Hnull Hbool Hnum Hdec Hstr Harr Hobj.
  fix IH 1. intros [ | b | n | m e | s | xs | kvs].
  - exact Hnull.
  - apply Hbool.
  - apply Hnum.
  - apply Hdec.
  - apply Hstr.
  - apply Harr. induction xs as [|x xs IHxs]; constructor; [apply IH | exact IHxs].
  - apply Hobj. induction kvs as [|[k v] kvs IHkvs]; constructor; [apply IH | exact IHkvs].
Qed.

Lemma hexValue_hexDigit d : d < 16 -> hexValue (hexDigit d) = Some d.
Proof.
  intros Hd. unfold hexDigit, hexValue.
  destruct (N.ltb_spec d 10); bool_cases; simpl; f_equal; lia.
Qed.

Lemma parseUnits_verbatim c tail :
  c <> 34 -> c <> 92 -> 32 <= c ->
  parseUnits (c :: tail) = '(str, r) ← parseUnits tail; Some (c :: str, r).
Proof.
  intros H1 H2 H3. simpl. bool_cases; try reflexivity.
Qed.

Lemma parseUnits_hex4 c tail :
  c < 65536 ->
  parseUnits (92 :: 117 :: hex4 c ++ tail)
  = '(str, r) ← parseUnits tail; Some (c :: str, r).
Proof.
  intros Hc. unfold hex4.
  cbn [parseUnits app N.eqb Pos.eqb].
  rewrite !hexValue_hexDigit by (apply N.mod_lt; lia).
  cbn [mbind option_bind].
  replace (4096 * (c / 4096 mod 16) + 256 * (c / 256 mod 16)
           + 16 * (c / 16 mod 16) + c mod 16) with c
    by (zify; Z.to_euclidean_division_equations; lia).
  reflexivity.
Qed.

Lemma parseUnits_quoteUnit c tail :
  parseUnits (quoteUnit c ++ tail)
  = '(str, r) ← parseUnits tail; Some (c :: str, r).
Proof.
  unfold quoteUnit.
  destruct (N.eqb_spec c 34) as [->|]; [reflexivity|].
  destruct (N.eqb_spec c 92) as [->|]; [reflexivity|].
  destruct (N.eqb_spec c 8) as [->|]; [reflexivity|].
  destruct (N.eqb_spec c 12) as [->|]; [reflexivity|].
  destruct (N.eqb_spec c 10) as [->|]; [reflexivity|].
  destruct (N.eqb_spec c 13) as [->|]; [reflexivity|].
  destruct (N.eqb_spec c 9) as [->|]; [reflexivity|].
  destruct ((c <? 32) || isHighSurrogate c || isLowSurrogate c) eqn:E.
  - apply parseUnits_hex4.
    unfold isHighSurrogate, isLowSurrogate in E.
    repeat (apply orb_true_iff in E; destruct E as [E|E]);
      [apply N.ltb_lt in E; lia | |];
      apply andb_true_iff in E; destruct E as [_ E]; apply N.leb_le in E; lia.
  - apply orb_false_iff in E. destruct E as [E _].
    apply orb_false_iff in E. destruct E as [E _].
    apply N.ltb_ge in E. apply parseUnits_verbatim; assumption.
Qed.

Lemma parseUnits_quoteUnits s : forall rest,
  parseUnits (quoteUnits s ++ rest) = Some (s, rest).
Proof.
  remember (length s) as n eqn:Hn. revert s Hn.
  induction n as [n IH] using lt_wf_ind. intros s Hn rest.
  destruct s as [|c tl]; [reflexivity|].
  assert (Hstep : parseUnits ((quoteUnit c ++ quoteUnits tl) ++ rest)
                  = Some (c :: tl, rest)).
  { rewrite <- app_assoc, parseUnits_quoteUnit.
    rewrite (IH (length tl)) by (simpl in Hn; subst; auto with arith).
    reflexivity. }
  destruct tl as [|d tl']; [exact Hstep|].
  cbn [quoteUnits]. 
  destruct (isHighSurrogate c && isLowSurrogate d) eqn:E; [|exact Hstep].
  apply andb_true_iff in E. destruct E as [Ec Ed].
  unfold isHighSurrogate in Ec. unfold isLowSurrogate in Ed.
  apply andb_true_iff in Ec. destruct Ec as [Ec _]. apply N.leb_le in Ec.
  apply andb_true_iff in Ed. destruct Ed as [Ed _]. apply N.leb_le in Ed.
  change ((c :: d :: quoteUnits tl') ++ rest)
    with (c :: d :: quoteUnits tl' ++ rest).
  rewrite parseUnits_verbatim by lia.
  rewrite parseUnits_verbatim by lia.
  rewrite (IH (length tl')) by (simpl in Hn; subst; auto with arith).
  reflexivity.
Qed.

Lemma readDigits_stop s :
  match s with c :: _ => isDigit c = false | [] => True end ->
  readDigits s = (Decimal.Nil, s).
Proof.
  destruct s as [|c rest]; [reflexivity|]. intros H. cbn [readDigits].
  unfold isDigit in H. apply andb_false_iff in H.
  assert (c < 48 \/ 57 < c)
    by (destruct H as [H|H]; apply N.leb_gt in H; lia).
  unfold digitOf. bool_cases; try reflexivity.
Qed.

Lemma readDigits_digits u : forall rest,
  match rest with c :: _ => isDigit c = false | [] => True end ->
  readDigits (digits u ++ rest) = (u, rest).
Proof.
  induction u; intros rest H; simpl;
    try (rewrite IHu by assumption; reflexivity).
  apply readDigits_stop, H.
Qed.

Lemma wellFormedInt_to_uint n : wellFormedInt (N.to_uint n) = true.
Proof.
  rewrite <- (DecimalN.Unsigned.of_to n) at 1.
  rewrite DecimalN.Unsigned.to_of.
  generalize (N.to_uint n). intros u. unfold Decimal.unorm.
  induction u; simpl; auto.
Qed.

Lemma digits_head n :
  exists c tl, digits (N.to_uint n) = c :: tl /\ isDigit c = true.
Proof.
  pose proof (wellFormedInt_to_uint n) as H.
  destruct (N.to_uint n); simpl in *; try discriminate; eauto.
Qed.

Lemma parseNumber_numberToString n rest :
  endsNumber rest ->
  parseNumber (numberToString n ++ rest) = Some (JNum n, rest).
Proof.
  intros Hend.
  assert (Hstop : match rest with c :: _ => isDigit c = false | [] => True end)
    by (destruct rest; [exact I | apply Hend]).
  assert (Hcont : continuesNumber rest = false).
  { destruct rest as [|c r]; [reflexivity|]. simpl.
    destruct Hend as (_ & ? & ? & ?). bool_cases; try reflexivity. }
  assert (Hnonneg : forall m, parseNumber (digits (N.to_uint m) ++ rest)
                              = Some (JNum (Z.of_N m), rest)).
  { intros m. unfold parseNumber.
    destruct (digits_head m) as (c & tl & Hc & Hd). rewrite Hc.
    cbn [app]. unfold isDigit in Hd. apply andb_true_iff in Hd.
    destruct Hd as [Hd1 Hd2]. apply N.leb_le in Hd1, Hd2.
    destruct (N.eqb_spec c 45); [lia|].
    change (c :: tl ++ rest) with ((c :: tl) ++ rest). rewrite <- Hc.
    rewrite readDigits_digits by assumption.
    rewrite wellFormedInt_to_uint, Hcont. cbv beta iota zeta.
    rewrite DecimalN.Unsigned.of_to. reflexivity. }
  destruct n as [|p|p].
  - apply (Hnonneg 0).
  - apply (Hnonneg (Npos p)).
  - unfold numberToString, parseNumber. cbn [app N.eqb Pos.eqb].
    rewrite readDigits_digits by assumption.
    rewrite wellFormedInt_to_uint, Hcont. cbv beta iota zeta.
    rewrite DecimalN.Unsigned.of_to. reflexivity.
Qed.


Lemma numberToString_head n :
  exists c tl, numberToString n = c :: tl /\ (c = 45 \/ isDigit c = true).
Proof.
  destruct n as [|p|p]; unfold numberToString.
  - destruct (digits_head 0) as (c & tl & Hc & Hd). eauto.
  - destruct (digits_head (Npos p)) as (c & tl & Hc & Hd).
    change (Z.to_N (Z.pos p)) with (Npos p). eauto.
  - eauto.
Qed.

Lemma stringify_head v : exists c tl, stringify v = c :: tl /\ startsValue c.
Proof.
  unfold startsValue.
  destruct v as [ | [|] | n | m e | s | [|x xs] | [|[k v] kvs]];
    try (eexists _, _; split; [reflexivity|]; tauto).
  - destruct (numberToString_head n) as (c & tl & Hc & Hd).
    exists c, tl. split; [exact Hc | tauto].
  - destruct (numberToString_head m) as (c & tl & Hc & Hd).
    exists c, (tl ++ 101 :: numberToString e).
    cbn [stringify]. rewrite Hc. split; [reflexivity | tauto].
Qed.

Lemma startsValue_spec c :
  startsValue c ->
  isWhitespace c = false /\ c <> 93 /\ c <> 125 /\ c <> 44.
Proof.
  unfold startsValue, isDigit, isWhitespace.
  intros H.
  assert (c = 110 \/ c = 116 \/ c = 102 \/ c = 45 \/ (48 <= c <= 57)
          \/ c = 34 \/ c = 91 \/ c = 123) as H'.
  { destruct H as [|[|[|[|[H|]]]]]; try tauto.
    apply andb_true_iff in H. destruct H as [H1 H2].
    apply N.leb_le in H1, H2. tauto. }
  clear H. split; [|lia].
  bool_cases; try reflexivity.
Qed.

Lemma skipWhitespace_stringify v rest :
  skipWhitespace (stringify v ++ rest) = stringify v ++ rest.
Proof.
  destruct (stringify_head v) as (c & tl & -> & Hc).
  apply startsValue_spec in Hc. destruct Hc as [Hc _].
  simpl. rewrite Hc. reflexivity.
Qed.

Lemma skipWhitespace_cons c s :
  isWhitespace c = false -> skipWhitespace (c :: s) = c :: s.
Proof. intros H. simpl. rewrite H. reflexivity. Qed.

Lemma endsNumber_elementsTail xs rest : endsNumber (elementsTail xs ++ rest).
Proof. destruct xs; simpl; repeat split; intros; discriminate. Qed.

Lemma endsNumber_membersTail kvs rest : endsNumber (membersTail kvs ++ rest).
Proof. destruct kvs as [|[k v] kvs]; simpl; repeat split; intros; discriminate. Qed.

Lemma parseElements_stringify xs : forall x fuel rest,
  Forall parsesBack (x :: xs) ->
  (sizeElements (x :: xs) <= fuel)%nat ->
  parseElements fuel (stringify x ++ elementsTail xs ++ rest)
  = Some (x :: xs, rest).
Proof.
  induction xs as [|y l IH]; intros x fuel rest HP Hsize;
    unfold sizeElements in Hsize; cbn [map list_sum fold_right] in Hsize;
    (destruct fuel as [|fuel]; [lia|]);
    inversion HP as [|? ? Hx Hrest]; subst;
    cbn [parseElements];
    rewrite Hx by (first [lia | apply endsNumber_elementsTail]);
    cbn [mbind option_bind].
  - reflexivity.
  - cbn [elementsTail app skipWhitespace isWhitespace N.eqb Pos.eqb orb].
    rewrite <- app_assoc.
    rewrite IH; [reflexivity | assumption |].
    unfold sizeElements. cbn [map list_sum fold_right]. lia.
Qed.

Lemma parseMembers_stringify kvs : forall k v fuel rest,
  Forall (fun kv => parsesBack (snd kv)) ((k, v) :: kvs) ->
  (sizeMembers ((k, v) :: kvs) <= fuel)%nat ->
  parseMembers fuel (quote k ++ 58 :: stringify v ++ membersTail kvs ++ rest)
  = Some ((k, v) :: kvs, rest).
Proof.
  induction kvs as [|[k' v'] l IH]; intros k v fuel rest HP Hsize;
    unfold sizeMembers in Hsize; cbn [map list_sum fold_right] in Hsize;
    (destruct fuel as [|fuel]; [lia|]);
    inversion HP as [|? ? Hx Hrest]; subst; cbn [snd] in Hx;
    cbn [parseMembers quote app skipWhitespace isWhitespace N.eqb Pos.eqb orb];
    rewrite parseUnits_quoteUnits;
    cbn [mbind option_bind skipWhitespace isWhitespace N.eqb Pos.eqb orb];
    rewrite Hx by (first [lia | apply endsNumber_membersTail]);
    cbn [mbind option_bind].
  - reflexivity.
  - cbn [membersTail app skipWhitespace isWhitespace N.eqb Pos.eqb orb].
    rewrite <- !app_assoc. cbn [app]. rewrite <- !app_assoc.
    change (34 :: quoteUnits k' ++ 58 :: stringify v' ++ membersTail l ++ rest)
      with (quote k' ++ 58 :: stringify v' ++ membersTail l ++ rest).
    rewrite IH; [reflexivity | assumption |].
    unfold sizeMembers. cbn [map list_sum fold_right]. lia.
Qed.

Lemma Forall_integral_parsesBack xs :
  Forall (fun x => integral x = true -> parsesBack x) xs ->
  forallb integral xs = true -> Forall parsesBack xs.
Proof.
  induction 1 as [|x l Hx Hl IH]; intros Hint; [constructor|].
  cbn [forallb] in Hint. apply andb_true_iff in Hint.
  destruct Hint as [Hi Hil]. constructor; auto.
Qed.

Lemma Forall_integral_members kvs :
  Forall (fun kv : JsString * Json =>
            integral (snd kv) = true -> parsesBack (snd kv)) kvs ->
  forallb (fun '(_, x) => integral x) kvs = true ->
  Forall (fun kv => parsesBack (snd kv)) kvs.
Proof.
  induction 1 as [|[k v] l Hx Hl IH]; intros Hint; [constructor|].
  cbn [forallb] in Hint. apply andb_true_iff in Hint.
  destruct Hint as [Hi Hil]. constructor; auto.
Qed.

Lemma parseValue_stringify v : integral v = true -> parsesBack v.
Proof.
  induction v as [ | b | n | m e | s | xs IH | kvs IH] using Json_ind';
    intros Hint; [| | | discriminate Hint | | |];
    cbn [integral] in Hint;
    [| | | | apply Forall_integral_parsesBack in IH; [|exact Hint]
         | apply Forall_integral_members in IH; [|exact Hint]];
    intros fuel rest Hsize Hend;
    (destruct fuel as [|fuel]; [simpl in Hsize; lia|]).
  - reflexivity.
  - destruct b; reflexivity.
  - cbn [parseValue stringify]. 
    rewrite (skipWhitespace_stringify (JNum n)). cbn [stringify].
    destruct (numberToString_head n) as (c & tl & Hc & Hd).
    pose proof (parseNumber_numberToString n rest Hend) as Hnum.
    rewrite Hc in *. cbn [app] in *.
    assert (c = 45 \/ 48 <= c <= 57) as Hrange.
    { destruct Hd as [Hd|Hd]; [auto|].
      unfold isDigit in Hd. apply andb_true_iff in Hd.
      destruct Hd as [H1 H2]. apply N.leb_le in H1, H2. auto. }
    bool_cases; try exact Hnum.
  - cbn [parseValue stringify quote app skipWhitespace isWhitespace N.eqb Pos.eqb orb].
    rewrite parseUnits_quoteUnits. reflexivity.
  - destruct xs as [|x xs]; [reflexivity|].
    change (stringify (JArr (x :: xs)))
      with (91 :: stringify x ++ elementsTail xs).
    cbn [parseValue app skipWhitespace isWhitespace N.eqb Pos.eqb orb].
    rewrite <- app_assoc.
    rewrite skipWhitespace_stringify.
    destruct (stringify_head x) as (c & tl & Hc & Hs).
    apply startsValue_spec in Hs. destruct Hs as (_ & Hs & _).
    rewrite Hc. cbn [app]. destruct (N.eqb_spec c 93); [contradiction|].
    change (c :: tl ++ elementsTail xs ++ rest)
      with ((c :: tl) ++ elementsTail xs ++ rest). rewrite <- Hc.
    rewrite parseElements_stringify; [reflexivity | assumption |].
    cbn [jsize] in Hsize. unfold sizeElements. lia.
  - destruct kvs as [|[k v] kvs]; [reflexivity|].
    change (stringify (JObj ((k, v) :: kvs)))
      with (123 :: quote k ++ 58 :: stringify v ++ membersTail kvs).
    cbn [parseValue app skipWhitespace isWhitespace N.eqb Pos.eqb orb].
    replace ((quote k ++ 58 :: stringify v ++ membersTail kvs) ++ rest)
      with (quote k ++ 58 :: stringify v ++ membersTail kvs ++ rest)
      by (rewrite <- !app_assoc; cbn [app]; rewrite <- app_assoc; reflexivity).
    cbn [quote app skipWhitespace isWhitespace N.eqb Pos.eqb orb].
    change (34 :: quoteUnits k ++ 58 :: stringify v ++ membersTail kvs ++ rest)
      with (quote k ++ 58 :: stringify v ++ membersTail kvs ++ rest).
    rewrite parseMembers_stringify; [reflexivity | assumption |].
    cbn [jsize] in Hsize. unfold sizeMembers. lia.
Qed.

Lemma sizeElements_cons x l :
  sizeElements (x :: l) = S (jsize x + sizeElements l).
Proof. reflexivity. Qed.

Lemma sizeMembers_cons k v l :
  sizeMembers ((k, v) :: l) = S (jsize v + sizeMembers l).
Proof. reflexivity. Qed.

Lemma jsize_JArr xs : jsize (JArr xs) = S (sizeElements xs).
Proof. reflexivity. Qed.

Lemma jsize_JObj kvs : jsize (JObj kvs) = S (sizeMembers kvs).
Proof. reflexivity. Qed.

Lemma length_elementsTail xs :
  Forall (fun x => (jsize x <= length (stringify x))%nat) xs ->
  (sizeElements xs < length (elementsTail xs))%nat.
Proof.
  induction 1 as [|x l Hx Hl IH].
  - unfold sizeElements. simpl. lia.
  - rewrite sizeElements_cons. cbn [elementsTail length].
    rewrite length_app. lia.
Qed.

Lemma length_membersTail kvs :
  Forall (fun kv => (jsize (snd kv) <= length (stringify (snd kv)))%nat) kvs ->
  (sizeMembers kvs < length (membersTail kvs))%nat.
Proof.
  induction 1 as [|[k v] l Hx Hl IH].
  - unfold sizeMembers. simpl. lia.
  - cbn [snd] in Hx. rewrite sizeMembers_cons. cbn [membersTail length].
    rewrite length_app. cbn [length]. rewrite length_app. lia.
Qed.

Lemma jsize_le_length v : (jsize v <= length (stringify v))%nat.
Proof.
  induction v as [ | b | n | m e | s | xs IH | kvs IH] using Json_ind'.
  - simpl. lia.
  - destruct b; simpl; lia.
  - destruct (numberToString_head n) as (c & tl & Hc & _).
    cbn [jsize stringify]. rewrite Hc. simpl. lia.
  - destruct (numberToString_head m) as (c & tl & Hc & _).
    cbn [jsize stringify]. rewrite Hc. simpl. lia.
  - simpl. lia.
  - destruct xs as [|x xs]; [simpl; lia|].
    change (stringify (JArr (x :: xs)))
      with (91 :: stringify x ++ elementsTail xs).
    inversion IH as [|? ? Hx Hrest]; subst.
    pose proof (length_elementsTail xs Hrest) as Ht.
    rewrite jsize_JArr, sizeElements_cons. cbn [length].
    rewrite length_app. lia.
  - destruct kvs as [|[k v] kvs]; [simpl; lia|].
    change (stringify (JObj ((k, v) :: kvs)))
      with (123 :: quote k ++ 58 :: stringify v ++ membersTail kvs).
    inversion IH as [|? ? Hx Hrest]; subst. cbn [snd] in Hx.
    pose proof (length_membersTail kvs Hrest) as Ht.
    rewrite jsize_JObj, sizeMembers_cons. cbn [length].
    rewrite length_app. cbn [length]. rewrite length_app. lia.
Qed.

(** Every value whose numbers are integers is read back from its
    serialisation. *)
Lemma parse_stringify v : integral v = true -> parse (stringify v) = Some v.
Proof.
  intros Hint. unfold parse.
  pose proof (parseValue_stringify v Hint (S (length (stringify v))) []) as H.
  rewrite app_nil_r in H. rewrite H.
  - reflexivity.
  - pose proof (jsize_le_length v). lia.
  - exact I.
Qed.

End JsonFacts.

(** ** The persistence gateway *)

Section GatewayFacts.
Import storageService.

Lemma actionOfName_actionName a : actionOfName (actionName a) = Some a.
Proof. destruct a; reflexivity. Qed.

Lemma animationOfName_animationName a :
  animationOfName (animationName a) = Some a.
Proof. destruct a; reflexivity. Qed.

Lemma logOfJson_logToJson log : logOfJson (logToJson log) = Some log.
Proof.
  destruct log as [i t a ts]. unfold logOfJson, logToJson. cbn [id text action timestamp].
  change (stringField (js "id") _) with (Some i).
  change (stringField (js "text") _) with (Some t).
  change (stringField (js "action") _) with (Some (actionName a)).
  change (numberField (js "timestamp") _) with (Some ts).
  cbn [mbind option_bind]. rewrite actionOfName_actionName. reflexivity.
Qed.

Lemma logsOfJson_logToJson logs :
  logsOfJson (JArr (map logToJson logs)) = Some logs.
Proof.
  unfold logsOfJson. induction logs as [|log rest IH]; [reflexivity|].
  cbn [map mapM]. rewrite logOfJson_logToJson. cbn [mbind option_bind].
  rewrite IH. reflexivity.
Qed.

Lemma creatureStateOfJson_creatureStateToJson state :
  creatureStateOfJson (creatureStateToJson state) = Some state.
Proof.
  destruct state as [b z an]. unfold creatureStateOfJson, creatureStateToJson.
  cbn [brightness size animation].
  change (numberField (js "brightness") _) with (Some b).
  change (numberField (js "size") _) with (Some z).
  change (stringField (js "animation") _) with (Some (animationName an)).
  cbn [mbind option_bind]. rewrite animationOfName_animationName. reflexivity.
Qed.

Lemma keys_distinct :
  LOGS_KEY <> CREATURE_KEY /\ LOGS_KEY <> SAFETY_KEY
  /\ CREATURE_KEY <> SAFETY_KEY.
Proof. repeat split; intros H; vm_compute in H; discriminate H. Qed.

Lemma integral_logs logs : integral (JArr (map logToJson logs)) = true.
Proof.
  cbn [integral]. induction logs as [|log rest IH]; [reflexivity|].
  cbn [map forallb]. rewrite IH. reflexivity.
Qed.

Lemma integral_creatureState state :
  integral (creatureStateToJson state) = true.
Proof. reflexivity. Qed.

(** A successful save followed by a load of the same key, when the key can
    be read, gives back the saved value, checked for its shape. *)
Lemma load_save {A : Type} key (ofJson : Json -> option A) value g :
  integral value = true ->
  success (fst (save key value g)) = true ->
  getItemThrows (localStorage g) key = None ->
  load key ofJson (snd (save key value g)) = ofJson value.
Proof.
  intros Hint. unfold save, load, setItem, getItem.
  destruct (setItemThrows (localStorage g) key (stringify value));
    cbn [fst snd success localStorage getItemThrows items];
    [discriminate|].
  intros _ ->. rewrite lookup_insert_eq, parse_stringify by exact Hint.
  reflexivity.
Qed.

(** C7. For each of the three record kinds and every value of the kind, a
    save that the gateway reports as successful, followed at once by a load
    of a readable store, returns the value saved; for the logs this is the
    same sequence in the same order. *)
Theorem save_load_roundtrip (g : Gateway) :
  (forall logs : list EmotionLog,
      success (fst (saveLogs logs g)) = true ->
      getItemThrows (localStorage g) LOGS_KEY = None ->
      loadLogs (snd (saveLogs logs g)) = logs)
  /\ (forall state : CreatureState,
      success (fst (saveCreatureState state g)) = true ->
      getItemThrows (localStorage g) CREATURE_KEY = None ->
      loadCreatureState (snd (saveCreatureState state g)) = Some state)
  /\ (forall score : Z,
      success (fst (saveSafetyScore score g)) = true ->
      getItemThrows (localStorage g) SAFETY_KEY = None ->
      loadSafetyScore (snd (saveSafetyScore score g)) = score).
Proof.
  split; [|split].
  - intros logs Hok Hread. unfold loadLogs, saveLogs in *.
    rewrite load_save by (first [apply integral_logs | assumption]).
    rewrite logsOfJson_logToJson. reflexivity.
  - intros state Hok Hread. unfold loadCreatureState, saveCreatureState in *.
    rewrite load_save by (first [apply integral_creatureState | assumption]).
    apply creatureStateOfJson_creatureStateToJson.
  - intros score Hok Hread. unfold loadSafetyScore, saveSafetyScore in *.
    rewrite load_save by (first [reflexivity | assumption]). reflexivity.
Qed.

Lemma save_load_roundtrip_witness :
  let g := freshGateway in
  let logs :=
    [ {| id := js "123"; text := js "Feeling happy";
         action := expressed; timestamp := 1700000000000 |};
      {| id := js "124"; text := jsq "said 'no'";
         action := suppressed; timestamp := 1700000000001 |} ] in
  let state := {| brightness := 75; size := 60; animation := grow |} in
  loadLogs (snd (saveLogs logs g)) = logs
  /\ loadCreatureState (snd (saveCreatureState state g)) = Some state
  /\ loadSafetyScore (snd (saveSafetyScore 42 g)) = 42.
Proof.
  cbv zeta. split; [|split].
  - refine (proj1 (save_load_roundtrip _) _ _ _); reflexivity.
  - refine (proj1 (proj2 (save_load_roundtrip _)) _ _ _); reflexivity.
  - refine (proj2 (proj2 (save_load_roundtrip _)) _ _ _); reflexivity.
Defined.

Lemma logsOfJson_not_sequence j :
  isSequence j = false -> logsOfJson j = None.
Proof. destruct j; simpl; congruence. Qed.

Lemma numberField_missing name members :
  getField name members = None -> numberField name members = None.
Proof. unfold numberField. intros ->. reflexivity. Qed.

Lemma stringField_missing name members :
  getField name members = None -> stringField name members = None.
Proof. unfold stringField. intros ->. reflexivity. Qed.

Lemma creatureStateOfJson_missing_field j :
  hasRequiredFields j = false -> creatureStateOfJson j = None.
Proof.
  unfold hasRequiredFields.
  destruct j as [ | | | | | | members]; try reflexivity.
  unfold hasField, creatureStateOfJson.
  destruct (getField (js "brightness") members) eqn:Eb;
    [|intros _; rewrite (numberField_missing _ _ Eb); reflexivity].
  destruct (getField (js "size") members) eqn:Es;
    [|intros _; rewrite (numberField_missing _ _ Es);
      destruct (numberField (js "brightness") members); reflexivity].
  destruct (getField (js "animation") members) eqn:Ea; [discriminate|].
  intros _. rewrite (stringField_missing _ _ Ea).
  destruct (numberField (js "brightness") members); [|reflexivity].
  destruct (numberField (js "size") members); reflexivity.
Qed.

Lemma safetyScoreOfJson_not_numeric j :
  isNumeric j = false -> safetyScoreOfJson j = None.
Proof. destruct j; simpl; congruence. Qed.

Lemma load_corrupted {A : Type} key hasShape (ofJson : Json -> option A) g :
  (forall j, hasShape j = false -> ofJson j = None) ->
  Corrupted key hasShape g -> load key ofJson g = None.
Proof.
  unfold load, getItem.
  intros Hrefuse [e He | data Hdata Hparse | data j Hdata Hparse Hshape].
  - rewrite He. reflexivity.
  - destruct (getItemThrows (localStorage g) key); [reflexivity|].
    rewrite Hdata, Hparse. reflexivity.
  - destruct (getItemThrows (localStorage g) key); [reflexivity|].
    rewrite Hdata, Hparse. apply Hrefuse, Hshape.
Qed.

(** A load looks at nothing but its own key. *)
Lemma load_agreeOutside {A : Type} key other (ofJson : Json -> option A) g g' :
  key <> other -> agreeOutside other g g' ->
  load key ofJson g' = load key ofJson g.
Proof.
  intros Hne Hagree. destruct (Hagree key Hne) as [Hitems Hthrows].
  unfold load, getItem. rewrite Hitems, Hthrows. reflexivity.
Qed.

(** C8. When the record under one key is corrupted (the store throws on
    reading it, its text is not JSON, or the parsed value has the wrong
    shape: logs that are not a sequence, a creature state that misses a
    required field, a safety score that is not numeric), the load of that
    kind returns the safe default of the kind: the empty sequence for the
    logs, absent for the creature state, 0 for the safety score. The loads
    never throw. Whatever is done to the record under one key, the loads of
    the two other kinds return what they returned before. *)
Theorem load_corrupted_default (g : Gateway) :
  (Corrupted LOGS_KEY isSequence g -> loadLogs g = [])
  /\ (Corrupted CREATURE_KEY hasRequiredFields g ->
      loadCreatureState g = None)
  /\ (Corrupted SAFETY_KEY isNumeric g -> loadSafetyScore g = 0)
  /\ (forall g', agreeOutside LOGS_KEY g g' ->
        loadCreatureState g' = loadCreatureState g
        /\ loadSafetyScore g' = loadSafetyScore g)
  /\ (forall g', agreeOutside CREATURE_KEY g g' ->
        loadLogs g' = loadLogs g
        /\ loadSafetyScore g' = loadSafetyScore g)
  /\ (forall g', agreeOutside SAFETY_KEY g g' ->
        loadLogs g' = loadLogs g
        /\ loadCreatureState g' = loadCreatureState g).
Proof.
  destruct keys_distinct as (Hlc & Hls & Hcs).
  unfold loadLogs, loadCreatureState, loadSafetyScore.
  split; [|split; [|split; [|split; [|split]]]].
  - intros Hc.
    rewrite (load_corrupted _ _ _ _ logsOfJson_not_sequence Hc). reflexivity.
  - intros Hc.
    apply (load_corrupted _ _ _ _ creatureStateOfJson_missing_field Hc).
  - intros Hc.
    rewrite (load_corrupted _ _ _ _ safetyScoreOfJson_not_numeric Hc).
    reflexivity.
  - intros g' Hagree.
    rewrite (load_agreeOutside CREATURE_KEY LOGS_KEY _ g g') by auto.
    rewrite (load_agreeOutside SAFETY_KEY LOGS_KEY _ g g') by auto.
    split; reflexivity.
  - intros g' Hagree.
    rewrite (load_agreeOutside LOGS_KEY CREATURE_KEY _ g g') by auto.
    rewrite (load_agreeOutside SAFETY_KEY CREATURE_KEY _ g g') by auto.
    split; reflexivity.
  - intros g' Hagree.
    rewrite (load_agreeOutside LOGS_KEY SAFETY_KEY _ g g') by auto.
    rewrite (load_agreeOutside CREATURE_KEY SAFETY_KEY _ g g') by auto.
    split; reflexivity.
Qed.

Lemma agreeOutside_tamper key data g : agreeOutside key g (tamper key data g).
Proof.
  intros k Hk. unfold tamper; cbn [localStorage items getItemThrows].
  rewrite lookup_insert_ne by congruence. split; reflexivity.
Qed.

Lemma load_corrupted_default_witness :
  let g := snd (saveSafetyScore 42
             (snd (saveCreatureState getInitialState freshGateway))) in
  (loadLogs (tamper LOGS_KEY (jsq "{'not': 'an array'}") g) = []
   /\ loadLogs (tamper LOGS_KEY (js "invalid json") g) = []
   /\ loadLogs (failingGateway {[ LOGS_KEY := js "[]" ]} notAvailable) = [])
  /\ (loadCreatureState
        (tamper CREATURE_KEY (jsq "{'brightness': 50, 'size': 50}") g) = None
      /\ loadCreatureState
           (tamper CREATURE_KEY (jsq "{'invalid': 'structure'}") g) = None)
  /\ (loadSafetyScore (tamper SAFETY_KEY (jsq "'42'") g) = 0
      /\ loadSafetyScore (tamper SAFETY_KEY (jsq "{'not': 'a number'}") g) = 0
      /\ loadSafetyScore (tamper SAFETY_KEY (js "not a number") g) = 0)
  /\ (loadCreatureState (tamper LOGS_KEY (js "invalid json") g)
      = Some getInitialState
      /\ loadSafetyScore (tamper LOGS_KEY (js "invalid json") g) = 42).
Proof.
  cbv zeta. split; [|split; [|split]].
  - split; [|split]; refine (proj1 (load_corrupted_default _) _).
    + eapply (WrongShape _ _ _ (jsq "{'not': 'an array'}")); reflexivity.
    + apply (Unparseable _ _ _ (js "invalid json")); reflexivity.
    + apply (Unreadable _ _ _ notAvailable); reflexivity.
  - split; refine (proj1 (proj2 (load_corrupted_default _)) _).
    + eapply (WrongShape _ _ _ (jsq "{'brightness': 50, 'size': 50}"));
        reflexivity.
    + eapply (WrongShape _ _ _ (jsq "{'invalid': 'structure'}")); reflexivity.
  - split; [|split];
      refine (proj1 (proj2 (proj2 (load_corrupted_default _))) _).
    + eapply (WrongShape _ _ _ (jsq "'42'")); reflexivity.
    + eapply (WrongShape _ _ _ (jsq "{'not': 'a number'}")); reflexivity.
    + apply (Unparseable _ _ _ (js "not a number")); reflexivity.
  - split.
    + etransitivity;
        [ refine (proj1 (proj1 (proj2 (proj2 (proj2
                    (load_corrupted_default _)))) _ _));
          apply agreeOutside_tamper
        | reflexivity ].
    + etransitivity;
        [ refine (proj2 (proj1 (proj2 (proj2 (proj2
                    (load_corrupted_default _)))) _ _));
          apply agreeOutside_tamper
        | reflexivity ].
Defined.

Lemma save_reportsFailure key value g e :
  writeThrows g key value e -> reportsFailure e (save key value g).
Proof.
  unfold writeThrows, reportsFailure, save, setItem. intros ->.
  exists (errorMessage e). cbn [fst snd getLastError lastError].
  repeat split. unfold errorMessage. intros ->. reflexivity.
Qed.

(** C9. For each of the three save operations, when the underlying write
    throws, whatever it throws, the operation returns
    [{success: false, error: message}] instead of throwing, [getLastError]
    gives that message afterwards, and the message contains [Storage full]
    when what was thrown is a quota-exceeded condition. *)
Theorem save_failure_is_reported (g : Gateway) (e : Exception) :
  (forall logs : list EmotionLog,
      writeThrows g LOGS_KEY (JArr (map logToJson logs)) e ->
      reportsFailure e (saveLogs logs g))
  /\ (forall state : CreatureState,
      writeThrows g CREATURE_KEY (creatureStateToJson state) e ->
      reportsFailure e (saveCreatureState state g))
  /\ (forall score : Z,
      writeThrows g SAFETY_KEY (JNum score) e ->
      reportsFailure e (saveSafetyScore score g)).
Proof.
  repeat split; intros; apply save_reportsFailure; assumption.
Qed.

Lemma save_failure_is_reported_witness :
  let log := {| id := js "123"; text := js "Test";
                action := expressed; timestamp := 1700000000000 |} in
  reportsFailure quotaExceeded (saveLogs [log] (failingGateway ∅ quotaExceeded))
  /\ reportsFailure notAvailable
       (saveSafetyScore 42 (failingGateway ∅ notAvailable)).
Proof.
  cbv zeta. split.
  - refine (proj1 (save_failure_is_reported _ _) _ _). reflexivity.
  - refine (proj2 (proj2 (save_failure_is_reported _ _)) _ _). reflexivity.
Defined.

(** *** The cases of [storageService.test.ts] and [EmotionContext.test.tsx] *)

Example loads_of_an_empty_store :
  loadLogs freshGateway = []
  /\ loadCreatureState freshGateway = None
  /\ loadSafetyScore freshGateway = 0.
Proof. repeat split. Qed.

Example loads_of_invalid_json :
  loadLogs (tamper LOGS_KEY (js "invalid json") freshGateway) = []
  /\ loadLogs (tamper LOGS_KEY (js "not valid json {]") freshGateway) = []
  /\ loadCreatureState
       (tamper CREATURE_KEY (js "not valid json {]") freshGateway) = None
  /\ loadSafetyScore (tamper SAFETY_KEY (js "not a number") freshGateway) = 0.
Proof. repeat split. Qed.

Example loads_of_wrong_shapes :
  loadLogs (tamper LOGS_KEY (jsq "{'not': 'an array'}") freshGateway) = []
  /\ loadCreatureState
       (tamper CREATURE_KEY (jsq "{'invalid': 'structure'}") freshGateway)
     = None
  /\ loadSafetyScore
       (tamper SAFETY_KEY (jsq "{'not': 'a number'}") freshGateway) = 0.
Proof. repeat split. Qed.

Example loads_of_an_unreadable_store :
  let g := failingGateway
             {[ SAFETY_KEY := js "42" ]} notAvailable in
  loadLogs g = [] /\ loadCreatureState g = None /\ loadSafetyScore g = 0.
Proof. repeat split. Qed.

Example loads_of_numerals :
  parse (js "1e2") = Some (JNum 100)
  /\ parse (js "-12.50E+1") = Some (JNum (-125))
  /\ parse (js "1.0") = Some (JNum 1)
  /\ parse (js "1.5") = Some (JDec 15 (-1))
  /\ parse (js "01") = None /\ parse (js "1.") = None
  /\ parse (js "1e") = None /\ parse (js ".5") = None
  /\ loadSafetyScore (tamper SAFETY_KEY (js "1e2") freshGateway) = 100.
Proof. repeat split. Qed.

Example load_of_a_hand_written_record :
  loadCreatureState
    (tamper CREATURE_KEY
       (jsq "{ 'brightness': 60, 'size': 55, 'animation': 'idle' }")
       freshGateway)
  = Some {| brightness := 60; size := 55; animation := idle |}.
Proof. reflexivity. Qed.

Example quota_exceeded_message :
  let log := {| id := js "123"; text := js "Test";
                action := expressed; timestamp := 1700000000000 |} in
  fst (saveLogs [log] (failingGateway ∅ quotaExceeded))
  = {| success := false; error := Some (js "Storage full") |}.
Proof. reflexivity. Qed.

Example clearAll_removes_the_records :
  let g := snd (saveSafetyScore 10
             (snd (saveCreatureState getInitialState freshGateway))) in
  loadLogs (clearAll g) = []
  /\ loadCreatureState (clearAll g) = None
  /\ loadSafetyScore (clearAll g) = 0.
Proof. repeat split. Qed.

(** The scenario of the spec: one expressed action, then one suppressed. *)
Example first_visit_scenario :
  let s1 := addLog (js "id-1") 1 (js "Feeling happy") expressed firstVisit in
  let s2 := addLog (js "id-2") 2 (js "Feeling sad") suppressed s1 in
  creatureState s1 = {| brightness := 55; size := 52; animation := grow |}
  /\ safetyScore s1 = 1
  /\ creatureState s2 = {| brightness := 52; size := 51; animation := curl |}
  /\ safetyScore s2 = 1
  /\ storageService.loadSafetyScore (gateway s2) = 1
  /\ storageService.loadCreatureState (gateway s2) = Some (creatureState s2)
  /\ storageService.loadLogs (gateway s2) = logs s2.
Proof. repeat split. Qed.

End GatewayFacts.

(** ** More on the state transition function *)

Section RepeatedActions.

Lemma applyActions_snoc actions a s :
  applyActions (actions ++ [a]) s = calculateNewState (applyActions actions s) a.
Proof. unfold applyActions. rewrite fold_left_app. reflexivity. Qed.

Lemma replicate_snoc {A : Type} (n : nat) (x : A) :
  replicate (S n) x = replicate n x ++ [x].
Proof.
  induction n as [|n IH]; [reflexivity|].
  change (replicate (S (S n)) x) with (x :: replicate (S n) x).
  rewrite IH at 1. reflexivity.
Qed.

Lemma applyActions_inBounds actions : forall s,
  inBounds s -> inBounds (applyActions actions s).
Proof.
  induction actions as [|a rest IH]; intros s Hs; [exact Hs|].
  apply IH, calculateNewState_inBounds.
Qed.

Lemma applyActions_replicate_expressed n : forall s,
  inBounds s ->
  brightness (applyActions (replicate n expressed) s)
  = Z.min 100 (brightness s + 5 * Z.of_nat n)
  /\ size (applyActions (replicate n expressed) s)
     = Z.min 100 (size s + 2 * Z.of_nat n).
Proof.
  induction n as [|n IH]; intros s Hs.
  - unfold inBounds in Hs. simpl. lia.
  - change (applyActions (replicate (S n) expressed) s)
      with (applyActions (replicate n expressed) (calculateNewState s expressed)).
    destruct (IH _ (calculateNewState_inBounds s expressed)) as [Hb Hz].
    rewrite Hb, Hz. unfold inBounds in Hs. simpl. lia.
Qed.

Lemma applyActions_replicate_suppressed n : forall s,
  inBounds s ->
  brightness (applyActions (replicate n suppressed) s)
  = Z.max 0 (brightness s - 3 * Z.of_nat n)
  /\ size (applyActions (replicate n suppressed) s)
     = Z.max 0 (size s - Z.of_nat n).
Proof.
  induction n as [|n IH]; intros s Hs.
  - unfold inBounds in Hs. simpl. lia.
  - change (applyActions (replicate (S n) suppressed) s)
      with (applyActions (replicate n suppressed) (calculateNewState s suppressed)).
    destruct (IH _ (calculateNewState_inBounds s suppressed)) as [Hb Hz].
    rewrite Hb, Hz. unfold inBounds in Hs. simpl. lia.
Qed.

(** X1. From a state within bounds, [n] expressed actions in a row leave
    brightness [min 100 (brightness + 5 n)] and size [min 100 (size + 2 n)];
    [n] suppressed actions leave brightness [max 0 (brightness - 3 n)] and
    size [max 0 (size - n)]. *)
Theorem repeated_actions_closed_form (n : nat) (s : CreatureState) :
  inBounds s ->
  brightness (applyActions (replicate n expressed) s)
  = Z.min 100 (brightness s + 5 * Z.of_nat n)
  /\ size (applyActions (replicate n expressed) s)
     = Z.min 100 (size s + 2 * Z.of_nat n)
  /\ brightness (applyActions (replicate n suppressed) s)
     = Z.max 0 (brightness s - 3 * Z.of_nat n)
  /\ size (applyActions (replicate n suppressed) s)
     = Z.max 0 (size s - Z.of_nat n).
Proof.
  intros Hs.
  destruct (applyActions_replicate_expressed n s Hs) as [H1 H2].
  destruct (applyActions_replicate_suppressed n s Hs) as [H3 H4].
  auto.
Qed.

Lemma repeated_actions_closed_form_witness :
  brightness (applyActions (replicate 7 expressed) getInitialState) = 85
  /\ size (applyActions (replicate 30 expressed) getInitialState) = 100
  /\ brightness (applyActions (replicate 20 suppressed) getInitialState) = 0
  /\ size (applyActions (replicate 20 suppressed) getInitialState) = 30.
Proof.
  assert (Hb : inBounds getInitialState) by (unfold inBounds; simpl; lia).
  split; [|split; [|split]].
  - exact (proj1 (repeated_actions_closed_form 7 getInitialState Hb)).
  - exact (proj1 (proj2 (repeated_actions_closed_form 30 getInitialState Hb))).
  - exact (proj1 (proj2 (proj2
             (repeated_actions_closed_form 20 getInitialState Hb)))).
  - exact (proj2 (proj2 (proj2
             (repeated_actions_closed_form 20 getInitialState Hb)))).
Defined.

(** X2. Whatever the state, in bounds or not, 51 or more expressed actions
    in a row end in [{100, 100, celebrate}] and 101 or more suppressed
    actions in a row end in [{0, 0, curl}]. *)
Theorem repeated_actions_saturate (n : nat) (s : CreatureState) :
  ((51 <= n)%nat ->
     applyActions (replicate n expressed) s
     = {| brightness := 100; size := 100; animation := celebrate |})
  /\ ((101 <= n)%nat ->
     applyActions (replicate n suppressed) s
     = {| brightness := 0; size := 0; animation := curl |}).
Proof.
  split; intros Hn.
  - destruct n as [|[|m]]; try lia.
    rewrite replicate_snoc, applyActions_snoc.
    change (applyActions (replicate (S m) expressed) s)
      with (applyActions (replicate m expressed) (calculateNewState s expressed)).
    pose proof (calculateNewState_inBounds s expressed) as Hs1.
    destruct (applyActions_replicate_expressed m _ Hs1) as [Hb Hz].
    unfold inBounds in Hs1.
    set (t := applyActions (replicate m expressed) (calculateNewState s expressed)) in *.
    unfold calculateNewState.
    replace (Z.max 0 (Z.min 100 (brightness t + 5))) with 100 by lia.
    replace (Z.max 0 (Z.min 100 (size t + 2))) with 100 by lia.
    reflexivity.
  - destruct n as [|[|m]]; try lia.
    rewrite replicate_snoc, applyActions_snoc.
    change (applyActions (replicate (S m) suppressed) s)
      with (applyActions (replicate m suppressed) (calculateNewState s suppressed)).
    pose proof (calculateNewState_inBounds s suppressed) as Hs1.
    destruct (applyActions_replicate_suppressed m _ Hs1) as [Hb Hz].
    unfold inBounds in Hs1.
    set (t := applyActions (replicate m suppressed) (calculateNewState s suppressed)) in *.
    unfold calculateNewState.
    replace (Z.max 0 (Z.min 100 (brightness t + -3))) with 0 by lia.
    replace (Z.max 0 (Z.min 100 (size t + -1))) with 0 by lia.
    reflexivity.
Qed.

Lemma repeated_actions_saturate_witness :
  applyActions (replicate 51 expressed)
    {| brightness := -1000; size := -7; animation := idle |}
  = {| brightness := 100; size := 100; animation := celebrate |}
  /\ applyActions (replicate 101 suppressed)
       {| brightness := 1000; size := 1000; animation := idle |}
     = {| brightness := 0; size := 0; animation := curl |}.
Proof.
  split.
  - apply (proj1 (repeated_actions_saturate 51 _)). lia.
  - apply (proj2 (repeated_actions_saturate 101 _)). lia.
Defined.

(** X3. The transition preserves the order of states: a creature that is at
    least as bright and as large as another stays so under the same action.
    On a state within bounds an expressed action lowers neither brightness
    nor size and a suppressed one raises neither, and one action moves
    brightness by at most 5 and size by at most 2. *)
Theorem calculateNewState_monotone (s1 s2 : CreatureState) (a : EmotionAction) :
  brightness s1 <= brightness s2 -> size s1 <= size s2 ->
  brightness (calculateNewState s1 a) <= brightness (calculateNewState s2 a)
  /\ size (calculateNewState s1 a) <= size (calculateNewState s2 a)
  /\ (inBounds s1 ->
      brightness s1 <= brightness (calculateNewState s1 expressed)
                    <= brightness s1 + 5
      /\ size s1 <= size (calculateNewState s1 expressed) <= size s1 + 2
      /\ brightness s1 - 3 <= brightness (calculateNewState s1 suppressed)
                           <= brightness s1
      /\ size s1 - 1 <= size (calculateNewState s1 suppressed) <= size s1).
Proof.
  intros Hb Hz. unfold inBounds. destruct a; simpl; lia.
Qed.

Lemma calculateNewState_monotone_witness :
  brightness (calculateNewState
                {| brightness := 40; size := 10; animation := curl |} expressed)
  <= brightness (calculateNewState getInitialState expressed).
Proof.
  refine (proj1 (calculateNewState_monotone
                   {| brightness := 40; size := 10; animation := curl |}
                   getInitialState expressed _ _)); simpl; lia.
Defined.

End RepeatedActions.

(** ** More on the session coordinator *)

Section SessionRuns.
Import storageService.

Lemma addLog_appends newId now tx a s :
  logs (addLog newId now tx a s)
  = logs s ++ [{| id := newId; text := tx; action := a; timestamp := now |}].
Proof. reflexivity. Qed.

Lemma addLog_creatureState newId now tx a s :
  creatureState (addLog newId now tx a s)
  = calculateNewState (creatureState s) a.
Proof. reflexivity. Qed.

Lemma addLogs_snoc entries entry s :
  addLogs (entries ++ [entry]) s
  = addLog (id entry) (timestamp entry) (text entry) (action entry)
      (addLogs entries s).
Proof. unfold addLogs. rewrite fold_left_app. reflexivity. Qed.

Lemma countExpressed_snoc entries entry :
  countExpressed (entries ++ [entry])
  = (countExpressed entries + if isExpressed entry then 1 else 0)%nat.
Proof.
  unfold countExpressed. rewrite List.filter_app, length_app. simpl.
  destruct (isExpressed entry); reflexivity.
Qed.

Lemma addLogs_logs entries : forall s,
  logs (addLogs entries s) = logs s ++ entries.
Proof.
  induction entries as [|entry rest IH] using rev_ind; intros s.
  - simpl. rewrite app_nil_r. reflexivity.
  - rewrite addLogs_snoc, addLog_appends, IH, <- app_assoc.
    destruct entry; reflexivity.
Qed.

Lemma addLogs_creatureState entries : forall s,
  creatureState (addLogs entries s)
  = applyActions (map action entries) (creatureState s).
Proof.
  induction entries as [|entry rest IH] using rev_ind; intros s.
  - reflexivity.
  - rewrite addLogs_snoc, addLog_creatureState, IH, map_app.
    cbn [map]. rewrite applyActions_snoc. reflexivity.
Qed.

(** X4. After any sequence of accepted actions the log history is the
    former history followed by the new logs in the order of the actions,
    and the creature is the former creature moved by those actions in that
    order. Neither depends on the store, and neither does the score: a
    write that fails changes nothing in memory. *)
Theorem addLogs_history (entries : list EmotionLog) (s : Session) :
  logs (addLogs entries s) = logs s ++ entries
  /\ creatureState (addLogs entries s)
     = applyActions (map action entries) (creatureState s)
  /\ forall g' : Gateway,
       let s' := {| logs := logs s; creatureState := creatureState s;
                    safetyScore := safetyScore s;
                    isInitialized := isInitialized s; gateway := g' |} in
       logs (addLogs entries s') = logs (addLogs entries s)
       /\ creatureState (addLogs entries s') = creatureState (addLogs entries s)
       /\ safetyScore (addLogs entries s') = safetyScore (addLogs entries s).
Proof.
  split; [apply addLogs_logs|]. split; [apply addLogs_creatureState|].
  intros g'. cbv zeta.
  rewrite !addLogs_logs, !addLogs_creatureState, !addLogs_safetyScore_from.
  repeat split.
Qed.

Lemma applyOp_coherent op s : coherent s -> coherent (applyOp op s).
Proof.
  intros [Hscore Hcreature]. destruct op as [entry|]; split.
  - cbn [applyOp]. rewrite addLog_safetyScore, addLog_appends.
    rewrite countExpressed_snoc, Hscore. unfold isExpressed. cbn [action].
    destruct (action entry); lia.
  - cbn [applyOp]. rewrite addLog_creatureState, addLog_appends.
    rewrite map_app. cbn [map action].
    rewrite applyActions_snoc, Hcreature. reflexivity.
  - reflexivity.
  - reflexivity.
Qed.

Lemma runSession_coherent ops : forall s,
  coherent s -> coherent (runSession ops s).
Proof.
  induction ops as [|op rest IH]; intros s Hs; [exact Hs|].
  apply IH, applyOp_coherent, Hs.
Qed.

(** X5. The derived state never drifts from the history. From a session
    whose score counts its expressed logs and whose creature is the default
    snapshot moved by the actions of its logs, any sequence of [addLog] and
    [clearLogs] calls leads to a session of which the same holds; its
    creature is within bounds and its score lies between 0 and the number
    of logs. The session before the mount effect is such a session. *)
Theorem session_stays_coherent (ops : list SessionOp) (s : Session) :
  coherent s ->
  coherent (runSession ops s)
  /\ inBounds (creatureState (runSession ops s))
  /\ 0 <= safetyScore (runSession ops s)
       <= Z.of_nat (length (logs (runSession ops s)))
  /\ forall g, coherent (initialSession g).
Proof.
  intros Hs. pose proof (runSession_coherent ops s Hs) as [Hscore Hcreature].
  split; [split; assumption|]. split; [|split].
  - rewrite Hcreature. apply applyActions_inBounds.
    unfold inBounds; simpl; lia.
  - rewrite Hscore. unfold countExpressed.
    pose proof (List.filter_length_le isExpressed (logs (runSession ops s))).
    lia.
  - intros g. split; reflexivity.
Qed.

Lemma session_stays_coherent_witness :
  let ops :=
    [ AddLog {| id := js "a"; text := js "Feeling happy";
                action := expressed; timestamp := 1 |};
      ClearLogs;
      AddLog {| id := js "b"; text := js "Feeling sad";
                action := suppressed; timestamp := 2 |};
      AddLog {| id := js "c"; text := js "Feeling excited";
                action := expressed; timestamp := 3 |} ] in
  coherent (runSession ops firstVisit).
Proof.
  cbv zeta.
  refine (proj1 (session_stays_coherent _ firstVisit _)).
  split; reflexivity.
Defined.

Lemma save_throws key value g :
  setItemThrows (localStorage (snd (save key value g)))
  = setItemThrows (localStorage g)
  /\ getItemThrows (localStorage (snd (save key value g)))
     = getItemThrows (localStorage g).
Proof.
  unfold save, setItem.
  destruct (setItemThrows (localStorage g) key (stringify value));
    split; reflexivity.
Qed.

Lemma save_usable key other value g :
  usable key (localStorage g) ->
  usable key (localStorage (snd (save other value g))).
Proof.
  intros [Hset Hget]. destruct (save_throws other value g) as [E1 E2].
  unfold usable. rewrite E1, E2. split; assumption.
Qed.

Lemma load_save_usable {A : Type} key (ofJson : Json -> option A) value g :
  integral value = true ->
  usable key (localStorage g) ->
  load key ofJson (snd (save key value g)) = ofJson value.
Proof.
  intros Hint [Hset Hget]. apply load_save; [exact Hint | | exact Hget].
  unfold save, setItem. rewrite Hset. reflexivity.
Qed.

Lemma load_save_other {A : Type} key other (ofJson : Json -> option A) value g :
  key <> other ->
  load key ofJson (snd (save other value g)) = load key ofJson g.
Proof.
  intros Hne. destruct (save_throws other value g) as [_ E2].
  unfold load, getItem. rewrite E2.
  destruct (getItemThrows (localStorage g) key); [reflexivity|].
  unfold save, setItem.
  destruct (setItemThrows (localStorage g) other (stringify value));
    cbn [snd localStorage items]; [reflexivity|].
  rewrite lookup_insert_ne by congruence. reflexivity.
Qed.

(** X6. What [addLog] persists is what it holds in memory, record by
    record: the mount effect run after an [addLog] call loads the same logs
    when the logs record can be written and read, the same creature state
    when the creature record can, the same safety score when the score
    record can. A write that fails for one record does not keep the other
    two from being stored. (The gateway is the one modelled from the
    spec.) *)
Theorem mount_after_addLog
    (newId : JsString) (now : Z) (tx : JsString) (a : EmotionAction)
    (s : Session) :
  let s' := addLog newId now tx a s in
  (usable LOGS_KEY (localStorage (gateway s)) -> logs (mount s') = logs s')
  /\ (usable CREATURE_KEY (localStorage (gateway s)) ->
      creatureState (mount s') = creatureState s')
  /\ (usable SAFETY_KEY (localStorage (gateway s)) ->
      safetyScore (mount s') = safetyScore s').
Proof.
  cbv zeta. destruct keys_distinct as (Hlc & Hls & Hcs).
  unfold mount, addLog. cbn [gateway logs creatureState safetyScore].
  set (newLogs := logs s ++ _).
  set (newState := calculateNewState _ _).
  set (newScore := match a with expressed => _ | suppressed => _ end).
  unfold loadLogs, loadCreatureState, loadSafetyScore.
  unfold saveSafetyScore, saveCreatureState, saveLogs.
  split; [|split]; intros Hkey.
  - rewrite !load_save_other by congruence.
    rewrite load_save_usable by (first [apply integral_logs | assumption]).
    rewrite logsOfJson_logToJson. reflexivity.
  - rewrite load_save_other by congruence.
    rewrite load_save_usable
      by (first [apply integral_creatureState | apply save_usable; assumption]).
    rewrite creatureStateOfJson_creatureStateToJson. reflexivity.
  - rewrite load_save_usable
      by (first [reflexivity | do 2 apply save_usable; assumption]).
    reflexivity.
Qed.

Lemma mount_after_addLog_witness :
  let s := initialSession logsQuotaGateway in
  let s' := addLog (js "id-1") 1700000000000 (js "Feeling happy") expressed s in
  creatureState (mount s')
  = {| brightness := 55; size := 52; animation := grow |}
  /\ safetyScore (mount s') = 1
  /\ logs (mount s') = []
  /\ getLastError (gateway s') = Some (js "Storage full").
Proof.
  cbv zeta. split; [|split; [|split]].
  - refine (proj1 (proj2 (mount_after_addLog _ _ _ _ _)) _).
    split; reflexivity.
  - refine (proj2 (proj2 (mount_after_addLog _ _ _ _ _)) _).
    split; reflexivity.
  - reflexivity.
  - reflexivity.
Defined.

End SessionRuns.

(** ** More on the page *)

Section PageRuns.


Lemma handleAction_blank newId now a p :
  isButtonDisabled p = true -> handleAction newId now a p = p.
Proof. unfold isButtonDisabled, handleAction. intros ->. reflexivity. Qed.

Lemma handleAction_nonblank newId now a p :
  isButtonDisabled p = false ->
  handleAction newId now a p
  = {| inputValue := [];
       session := addLog newId now (inputValue p) a (session p) |}.
Proof. unfold isButtonDisabled, handleAction. intros ->. reflexivity. Qed.

(** X7. A second click without typing in between does nothing, whatever
    the two actions: the first click either was refused or has emptied the
    input. So two clicks in a row add at most one log. *)
Theorem handleAction_second_click
    (id1 id2 : JsString) (now1 now2 : Z) (a1 a2 : EmotionAction) (p : Page) :
  handleAction id2 now2 a2 (handleAction id1 now1 a1 p)
  = handleAction id1 now1 a1 p
  /\ (length (logs (session (handleAction id2 now2 a2
                               (handleAction id1 now1 a1 p))))
      <= length (logs (session p)) + 1)%nat.
Proof.
  destruct (isButtonDisabled p) eqn:E.
  - rewrite (handleAction_blank id1 now1 a1 p E).
    rewrite (handleAction_blank id2 now2 a2 p E). split; [reflexivity | lia].
  - rewrite (handleAction_nonblank id1 now1 a1 p E).
    rewrite handleAction_blank by reflexivity.
    split; [reflexivity|]. cbn [session]. rewrite addLog_appends, length_app.
    simpl. lia.
Qed.

(** X8. The buttons are disabled exactly when a click would change nothing.
    When they are enabled, a click appends one log whose text is the input
    value as typed, surrounding white space included, empties the input and
    so leaves the buttons disabled. *)
Theorem isButtonDisabled_iff_noop
    (newId : JsString) (now : Z) (a : EmotionAction) (p : Page) :
  let p' := handleAction newId now a p in
  (isButtonDisabled p = true <-> p' = p)
  /\ (isButtonDisabled p = false ->
      logs (session p')
      = logs (session p)
        ++ [{| id := newId; text := inputValue p; action := a;
               timestamp := now |}]
      /\ inputValue p' = []
      /\ isButtonDisabled p' = true).
Proof.
  cbv zeta. split; [split|].
  - apply handleAction_blank.
  - intros Hsame. destruct (isButtonDisabled p) eqn:E; [reflexivity|].
    rewrite (handleAction_nonblank newId now a p E) in Hsame.
    unfold isButtonDisabled in E. rewrite <- Hsame in E. discriminate E.
  - intros E. rewrite (handleAction_nonblank newId now a p E).
    repeat split.
Qed.

Lemma isButtonDisabled_iff_noop_witness :
  let p := {| inputValue := js " hi "; session := firstVisit |} in
  let p' := handleAction (js "id-1") 1700000000000 expressed p in
  map text (logs (session p')) = [js " hi "]
  /\ inputValue p' = []
  /\ isButtonDisabled p' = true.
Proof.
  cbv zeta.
  pose proof (proj2 (isButtonDisabled_iff_noop (js "id-1") 1700000000000
                       expressed
                       {| inputValue := js " hi "; session := firstVisit |})
                eq_refl) as (Hlogs & Hin & Hdis).
  rewrite Hlogs. repeat split; assumption.
Defined.









End PageRuns.

(** ** The log history *)

Section LogHistoryFacts.

Lemma insertBy_Permutation {A : Type} (compare : A -> A -> Z) x l :
  Permutation (insertBy compare x l) (x :: l).
Proof.
  induction l as [|y l IH]; simpl; [reflexivity|].
  destruct (compare x y <=? 0); [reflexivity|].
  rewrite IH. apply perm_swap.
Qed.

Lemma sortBy_Permutation {A : Type} (compare : A -> A -> Z) l :
  Permutation (sortBy compare l) l.
Proof.
  induction l as [|x l IH]; simpl; [reflexivity|].
  rewrite insertBy_Permutation, IH. reflexivity.
Qed.

Lemma insertBy_newest_first x l :
  StronglySorted (fun a b => timestamp b <= timestamp a) l ->
  StronglySorted (fun a b => timestamp b <= timestamp a)
    (insertBy (fun a b => timestamp b - timestamp a) x l).
Proof.
  induction 1 as [|y l Hsorted IH Hall]; simpl.
  - repeat constructor.
  - destruct (Z.leb_spec (timestamp y - timestamp x) 0).
    + constructor; [constructor; assumption|].
      constructor; [lia|].
      eapply Forall_impl; [exact Hall|]. simpl. intros; lia.
    + constructor; [exact IH|].
      rewrite insertBy_Permutation. constructor; [lia | exact Hall].
Qed.

Lemma withTimestamp_insertBy t x l :
  withTimestamp t (insertBy (fun a b => timestamp b - timestamp a) x l)
  = withTimestamp t (x :: l).
Proof.
  unfold withTimestamp. induction l as [|y l IH]; [reflexivity|].
  cbn [insertBy].
  destruct (Z.leb_spec (timestamp y - timestamp x) 0); [reflexivity|].
  cbn [List.filter] in *. rewrite IH.
  destruct (Z.eqb_spec (timestamp x) t), (Z.eqb_spec (timestamp y) t);
    try reflexivity; lia.
Qed.

Lemma renderItems_valid logs :
  Forall (fun log => isValidTime (timestamp log) = true) logs ->
  renderItems logs = Returned logs.
Proof.
  induction 1 as [|log rest Hlog Hrest IH]; [reflexivity|].
  cbn [renderItems]. unfold renderItem. rewrite Hlog, IH. reflexivity.
Qed.

Lemma renderItems_invalid logs :
  Exists (fun log => isValidTime (timestamp log) = false) logs ->
  renderItems logs = Threw invalidTimeValue.
Proof.
  induction 1 as [log rest Hlog | log rest Hrest IH];
    cbn [renderItems]; unfold renderItem.
  - rewrite Hlog. reflexivity.
  - destruct (isValidTime (timestamp log)); [|reflexivity].
    rewrite IH. reflexivity.
Qed.

Lemma valid_or_invalid (logs : list EmotionLog) :
  Forall (fun log => isValidTime (timestamp log) = true) logs
  \/ Exists (fun log => isValidTime (timestamp log) = false) logs.
Proof.
  induction logs as [|log rest [IH | IH]].
  - left. constructor.
  - destruct (isValidTime (timestamp log)) eqn:Hlog.
    + left. constructor; assumption.
    + right. apply Exists_cons_hd, Hlog.
  - right. apply Exists_cons_tl, IH.
Qed.

Lemma valid_not_invalid (logs : list EmotionLog) :
  Forall (fun log => isValidTime (timestamp log) = true) logs ->
  Exists (fun log => isValidTime (timestamp log) = false) logs -> False.
Proof.
  intros Hall Hex. apply List.Exists_exists in Hex as (log & Hin & Hlog).
  rewrite List.Forall_forall in Hall. rewrite (Hall log Hin) in Hlog.
  discriminate.
Qed.

Lemma sortedLogs_valid logs :
  Forall (fun log => isValidTime (timestamp log) = true) logs ->
  Forall (fun log => isValidTime (timestamp log) = true) (sortedLogs logs).
Proof.
  rewrite !List.Forall_forall. intros Hall log Hin. apply Hall.
  eapply Permutation_in; [apply sortBy_Permutation | exact Hin].
Qed.

Lemma sortedLogs_invalid logs :
  Exists (fun log => isValidTime (timestamp log) = false) logs ->
  Exists (fun log => isValidTime (timestamp log) = false) (sortedLogs logs).
Proof.
  rewrite !List.Exists_exists. intros (log & Hin & Hlog).
  exists log. split; [|exact Hlog].
  eapply Permutation_in; [symmetry; apply sortBy_Permutation | exact Hin].
Qed.

(** What the view is, by the logs it is given. *)
Lemma LogHistory_cases (logs : list EmotionLog) :
  (logs = [] /\ LogHistory logs = Returned EmptyState)
  \/ (logs <> []
      /\ Forall (fun log => isValidTime (timestamp log) = true) logs
      /\ LogHistory logs = Returned (LogList (sortedLogs logs)))
  \/ (logs <> []
      /\ Exists (fun log => isValidTime (timestamp log) = false) logs
      /\ LogHistory logs = Threw invalidTimeValue).
Proof.
  destruct logs as [|log rest]; [left; split; reflexivity|].
  right. unfold LogHistory. cbn [length Nat.eqb].
  destruct (valid_or_invalid (log :: rest)) as [Hall | Hex].
  - left. split; [discriminate|]. split; [exact Hall|].
    rewrite (renderItems_valid _ (sortedLogs_valid _ Hall)). reflexivity.
  - right. split; [discriminate|]. split; [exact Hex|].
    rewrite (renderItems_invalid _ (sortedLogs_invalid _ Hex)). reflexivity.
Qed.

(** X10. The history view shows the empty state exactly when there is no
    log. When there are logs and every timestamp is a valid time value (at
    most 8.64e15 ms from the epoch on either side), it lists the logs newest
    first; when some timestamp is not, rendering throws the RangeError of
    toISOString, and it throws in no other case. The list has timestamps
    that never increase from top to bottom, every log appears in it exactly
    once (it is a permutation of the logs), and logs with the same timestamp
    keep the order they were logged in. *)
Theorem LogHistory_newest_first (logs : list EmotionLog) :
  (LogHistory logs = Returned EmptyState <-> logs = [])
  /\ (LogHistory logs = Returned (LogList (sortedLogs logs))
      <-> logs <> []
          /\ Forall (fun log => isValidTime (timestamp log) = true) logs)
  /\ (LogHistory logs = Threw invalidTimeValue
      <-> Exists (fun log => isValidTime (timestamp log) = false) logs)
  /\ (forall e, LogHistory logs = Threw e -> e = invalidTimeValue)
  /\ StronglySorted (fun a b => timestamp b <= timestamp a) (sortedLogs logs)
  /\ Permutation (sortedLogs logs) logs
  /\ forall t, withTimestamp t (sortedLogs logs) = withTimestamp t logs.
Proof.
  split; [|split; [|split; [|split; [|split; [|split]]]]].
  - destruct (LogHistory_cases logs)
      as [(Hnil & ->) | [(Hne & _ & ->) | (Hne & _ & ->)]];
      split; try congruence; intros; exfalso; auto.
  - destruct (LogHistory_cases logs)
      as [(-> & H) | [(Hne & Hall & ->) | (Hne & Hex & ->)]].
    + rewrite H. split; [discriminate | intros [Hne _]; congruence].
    + split; [intros _; split; assumption | reflexivity].
    + split; [discriminate|].
      intros [_ Hall]. destruct (valid_not_invalid _ Hall Hex).
  - destruct (LogHistory_cases logs)
      as [(-> & H) | [(Hne & Hall & ->) | (Hne & Hex & ->)]].
    + rewrite H. split; [discriminate | intros Hex; inversion Hex].
    + split; [discriminate|].
      intros Hex. destruct (valid_not_invalid _ Hall Hex).
    + split; [intros _; exact Hex | reflexivity].
  - intros e.
    destruct (LogHistory_cases logs)
      as [(_ & ->) | [(_ & _ & ->) | (_ & _ & ->)]]; congruence.
  - unfold sortedLogs, sortBy. induction logs as [|x l IH]; simpl.
    + constructor.
    + apply insertBy_newest_first, IH.
  - apply sortBy_Permutation.
  - intros t. unfold sortedLogs, sortBy.
    induction logs as [|x l IH]; [reflexivity|].
    cbn [fold_right]. rewrite withTimestamp_insertBy.
    unfold withTimestamp in *. cbn [List.filter]. rewrite IH. reflexivity.
Qed.

Example LogHistory_of_the_largest_time_value :
  let log t := {| id := js "1"; text := js "Happy"; action := expressed;
                  timestamp := t |} in
  LogHistory [log 1000; log 8640000000000000]
  = Returned (LogList [log 8640000000000000; log 1000])
  /\ LogHistory [log 1000; log 8640000000000001] = Threw invalidTimeValue
  /\ LogHistory [log (-8640000000000001)] = Threw invalidTimeValue
  /\ LogHistory [] = Returned EmptyState.
Proof. repeat split. Qed.




End LogHistoryFacts.

(** ** The colour helper of the accessibility tests *)

Section HexToRgbFacts.
Local Open Scope N_scope.

Lemma hexValue_bound c v : hexValue c = Some v -> v < 16.
Proof.
  unfold hexValue.
  destruct ((48 <=? c) && (c <=? 57)) eqn:E1.
  { apply andb_true_iff in E1. destruct E1 as [H1 H2].
    apply N.leb_le in H1, H2. intros [= <-]. lia. }
  destruct ((97 <=? c) && (c <=? 102)) eqn:E2.
  { apply andb_true_iff in E2. destruct E2 as [H1 H2].
    apply N.leb_le in H1, H2. intros [= <-]. lia. }
  destruct ((65 <=? c) && (c <=? 70)) eqn:E3; [|discriminate].
  apply andb_true_iff in E3. destruct E3 as [H1 H2].
  apply N.leb_le in H1, H2. intros [= <-]. lia.
Qed.

Lemma hexPair_bound h l v : hexPair h l = Some v -> v <= 255.
Proof.
  unfold hexPair.
  destruct (hexValue h) as [a|] eqn:Ea; [|discriminate].
  destruct (hexValue l) as [b|] eqn:Eb; [|discriminate].
  cbn [mbind option_bind]. intros [= <-].
  apply hexValue_bound in Ea, Eb. lia.
Qed.

Lemma hexPair_hexDigit v :
  v <= 255 -> hexPair (hexDigit (v / 16)) (hexDigit (v mod 16)) = Some v.
Proof.
  intros Hv. unfold hexPair.
  rewrite !hexValue_hexDigit
    by (zify; Z.to_euclidean_division_equations; lia).
  cbn [mbind option_bind]. f_equal.
  zify; Z.to_euclidean_division_equations; lia.
Qed.

Lemma hexDigit_not_hash d : (hexDigit d =? 35) = false.
Proof. unfold hexDigit. apply N.eqb_neq. destruct (d <? 10) eqn:E; lia. Qed.

Lemma hexValue_below_128 :
  forallb (fun n =>
             let c := N.of_nat n in
             match hexValue c with
             | Some v => isHexDigit c && (v =? hexDigitValue c)
             | None => negb (isHexDigit c)
             end) (seq 0 128) = true.
Proof. vm_compute. reflexivity. Qed.

Lemma isHexDigit_from_128 c : 128 <= c -> isHexDigit c = false.
Proof.
  intros Hc. unfold isHexDigit.
  let l := eval vm_compute in (js "0123456789abcdefABCDEF") in
  change (js "0123456789abcdefABCDEF") with l.
  cbn [existsb].
  repeat (rewrite (proj2 (N.eqb_neq c _)) by lia). reflexivity.
Qed.

(** The digits [hexValue] reads are the hexadecimal digits, and it reads
    them at their value. *)
Lemma hexValue_isHexDigit c v :
  hexValue c = Some v <-> isHexDigit c = true /\ v = hexDigitValue c.
Proof.
  destruct (N.lt_ge_cases c 128) as [Hc | Hc].
  - pose proof hexValue_below_128 as Hall.
    rewrite forallb_forall in Hall.
    specialize (Hall (N.to_nat c)). cbv zeta in Hall.
    rewrite N2Nat.id in Hall.
    assert (Hin : List.In (N.to_nat c) (seq 0 128)) by (apply in_seq; lia).
    specialize (Hall Hin).
    destruct (hexValue c) as [w|].
    + apply andb_true_iff in Hall as [Hdigit Hvalue].
      apply N.eqb_eq in Hvalue. split.
      * intros [= <-]. split; assumption.
      * intros [_ ->]. f_equal. exact Hvalue.
    + apply negb_true_iff in Hall. split; [discriminate|].
      intros [Hdigit _]. congruence.
  - rewrite (isHexDigit_from_128 c Hc). split; [|intros [? _]; discriminate].
    unfold hexValue.
    destruct (N.leb_spec c 57), (N.leb_spec c 102), (N.leb_spec c 70);
      try lia.
    rewrite !andb_false_r. discriminate.
Qed.

Lemma hexPair_isHexDigit h l v :
  hexPair h l = Some v
  <-> isHexDigit h = true /\ isHexDigit l = true
      /\ v = 16 * hexDigitValue h + hexDigitValue l.
Proof.
  unfold hexPair. split.
  - destruct (hexValue h) as [a|] eqn:Ea; [|discriminate].
    destruct (hexValue l) as [b|] eqn:Eb; [|discriminate].
    cbn [mbind option_bind]. intros [= <-].
    apply hexValue_isHexDigit in Ea as [Hh ->], Eb as [Hl ->]. auto.
  - intros (Hh & Hl & ->).
    rewrite (proj2 (hexValue_isHexDigit h _) (conj Hh eq_refl)).
    rewrite (proj2 (hexValue_isHexDigit l _) (conj Hl eq_refl)).
    reflexivity.
Qed.

Lemma isHexDigit_not_hash c : isHexDigit c = true -> (c =? 35) = false.
Proof.
  intros Hc. apply N.eqb_neq. intros ->. vm_compute in Hc. discriminate.
Qed.

(** The strings [hexToRgb] accepts, and what it reads in them. *)
Lemma hexToRgb_accepts (hex : JsString) (r g b : N) :
  hexToRgb hex = Some (r, g, b)
  <-> exists r1 r2 g1 g2 b1 b2,
        (hex = [r1; r2; g1; g2; b1; b2]
         \/ hex = 35 :: [r1; r2; g1; g2; b1; b2])
        /\ Forall (fun c => isHexDigit c = true) [r1; r2; g1; g2; b1; b2]
        /\ r = 16 * hexDigitValue r1 + hexDigitValue r2
        /\ g = 16 * hexDigitValue g1 + hexDigitValue g2
        /\ b = 16 * hexDigitValue b1 + hexDigitValue b2.
Proof.
  split.
  - unfold hexToRgb.
    set (digits := match hex with
                   | c :: rest => if c =? 35 then rest else hex
                   | [] => hex
                   end).
    assert (Hhex : hex = digits \/ hex = 35 :: digits).
    { subst digits. destruct hex as [|c rest]; [auto|].
      destruct (N.eqb_spec c 35) as [-> | _]; auto. }
    destruct digits as [|r1 [|r2 [|g1 [|g2 [|b1 [|b2 [|]]]]]]];
      try discriminate.
    destruct (hexPair r1 r2) as [r'|] eqn:Er; [|discriminate].
    destruct (hexPair g1 g2) as [g'|] eqn:Eg; [|discriminate].
    destruct (hexPair b1 b2) as [b'|] eqn:Eb; [|discriminate].
    cbn [mbind option_bind]. intros [= <- <- <-].
    apply hexPair_isHexDigit in Er as (Hr1 & Hr2 & Hr).
    apply hexPair_isHexDigit in Eg as (Hg1 & Hg2 & Hg).
    apply hexPair_isHexDigit in Eb as (Hb1 & Hb2 & Hb).
    exists r1, r2, g1, g2, b1, b2.
    split; [exact Hhex|]. split; [repeat constructor; assumption|].
    auto.
  - intros (r1 & r2 & g1 & g2 & b1 & b2 & Hhex & Hdigits & -> & -> & ->).
    inversion_clear Hdigits as [|? ? Hr1 H1].
    inversion_clear H1 as [|? ? Hr2 H2].
    inversion_clear H2 as [|? ? Hg1 H3].
    inversion_clear H3 as [|? ? Hg2 H4].
    inversion_clear H4 as [|? ? Hb1 H5].
    inversion_clear H5 as [|? ? Hb2 _].
    assert (Hpairs :
      hexPair r1 r2 = Some (16 * hexDigitValue r1 + hexDigitValue r2)
      /\ hexPair g1 g2 = Some (16 * hexDigitValue g1 + hexDigitValue g2)
      /\ hexPair b1 b2 = Some (16 * hexDigitValue b1 + hexDigitValue b2)).
    { repeat split; apply hexPair_isHexDigit; auto. }
    destruct Hpairs as (Er & Eg & Eb).
    unfold hexToRgb. destruct Hhex as [-> | ->].
    + rewrite (isHexDigit_not_hash r1 Hr1). rewrite Er, Eg, Eb. reflexivity.
    + cbn [N.eqb Pos.eqb]. rewrite Er, Eg, Eb. reflexivity.
Qed.

(** X12. [hexToRgb] accepts exactly the strings made of six hexadecimal
    digits (0 to 9, a to f, A to F), with or without a leading [#], and
    returns for each component the value of its two digits, sixteen times
    the first plus the second; every other string is refused. Each
    component it returns is at most 255. Every colour has such a spelling:
    the six digits of its components are read back as that colour, with the
    [#] and without it. *)
Theorem hexToRgb_components (hex : JsString) (r g b : N) :
  (hexToRgb hex = Some (r, g, b)
   <-> exists r1 r2 g1 g2 b1 b2,
         (hex = [r1; r2; g1; g2; b1; b2]
          \/ hex = 35 :: [r1; r2; g1; g2; b1; b2])
         /\ Forall (fun c => isHexDigit c = true) [r1; r2; g1; g2; b1; b2]
         /\ r = 16 * hexDigitValue r1 + hexDigitValue r2
         /\ g = 16 * hexDigitValue g1 + hexDigitValue g2
         /\ b = 16 * hexDigitValue b1 + hexDigitValue b2)
  /\ (hexToRgb hex = Some (r, g, b) ->
     r <= 255 /\ g <= 255 /\ b <= 255
     /\ (length hex = 6%nat \/ length hex = 7%nat))
  /\ (r <= 255 -> g <= 255 -> b <= 255 ->
      hexToRgb (rgbToHex r g b) = Some (r, g, b)
      /\ hexToRgb (tail (rgbToHex r g b)) = Some (r, g, b)).
Proof.
  split; [apply hexToRgb_accepts|]. split.
  - unfold hexToRgb.
    set (digits := match hex with
                   | c :: rest => if c =? 35 then rest else hex
                   | [] => hex
                   end).
    assert (Hlen : (length hex = length digits
                    \/ length hex = S (length digits))%nat).
    { subst digits. destruct hex as [|c rest]; [auto|].
      destruct (c =? 35); simpl; auto. }
    destruct digits as [|r1 [|r2 [|g1 [|g2 [|b1 [|b2 [|]]]]]]];
      try discriminate.
    destruct (hexPair r1 r2) as [r'|] eqn:Er; [|discriminate].
    destruct (hexPair g1 g2) as [g'|] eqn:Eg; [|discriminate].
    destruct (hexPair b1 b2) as [b'|] eqn:Eb; [|discriminate].
    cbn [mbind option_bind]. intros [= <- <- <-].
    apply hexPair_bound in Er, Eg, Eb. simpl in Hlen.
    repeat split; assumption.
  - intros Hr Hg Hb. unfold rgbToHex, hexToRgb. cbn [tail].
    rewrite hexDigit_not_hash. cbn [N.eqb Pos.eqb].
    rewrite !hexPair_hexDigit by assumption. split; reflexivity.
Qed.

Lemma hexToRgb_components_witness :
  hexToRgb (js "#1a1a1a") = Some (26, 26, 26)
  /\ hexToRgb (js "F2C6DE") = Some (242, 198, 222)
  /\ hexToRgb (js "#fff") = None
  /\ hexToRgb (js "#1g1a1a") = None
  /\ hexToRgb (rgbToHex 180 248 200) = Some (180, 248, 200).
Proof.
  split; [|split; [|split; [|split]]].
  - refine (proj2 (proj1 (hexToRgb_components _ _ _ _)) _).
    exists 49, 97, 49, 97, 49, 97.
    split; [right; reflexivity|].
    split; [repeat constructor | repeat split].
  - refine (proj2 (proj1 (hexToRgb_components _ _ _ _)) _).
    exists 70, 50, 67, 54, 68, 69.
    split; [left; reflexivity|].
    split; [repeat constructor | repeat split].
  - reflexivity.
  - reflexivity.
  - refine (proj1 (proj2 (proj2 (hexToRgb_components [] 180 248 200))
                     _ _ _)); lia.
Defined.

End HexToRgbFacts.

